(** * hp: heap-profile call graph — canonicalizer, graph builder, pruner

    A shallow embedding of [hp.go] (CleanupStacks, graph.Analyze,
    state.SizeLabel, state.Label and state.GraphViz) together with the
    properties its specification states about them. *)

From Stdlib Require Import ZArith NArith List String Ascii Lia.
From Stdlib Require Import DecimalString HexadecimalString.
From Stdlib Require Import Floats.SpecFloat.
From stdpp Require Import base option list gmap strings sorting.

Local Open Scope Z_scope.
#[local] Set Warnings "-clear-no-such-hyp".

(** ** Machine integers

    Go's [int] is a 64-bit two's-complement integer on the platforms hp
    runs on; [+] and [+=] wrap around silently. *)
Module GoInt.

Definition bits : Z := 64.
Definition min_int : Z := - 2 ^ 63.
Definition max_int : Z := 2 ^ 63 - 1.

Definition wrap (z : Z) : Z := (z + 2 ^ 63) mod 2 ^ 64 - 2 ^ 63.

Definition add (a b : Z) : Z := wrap (a + b).

(** Go's [/] on integers truncates toward zero. *)
Definition div (a b : Z) : Z := Z.quot a b.

Definition in_range (z : Z) : Prop := min_int <= z <= max_int.

End GoInt.

(** ** Data model *)

(** Modelled from the spec: the [Stats] cost record and its [Add] method are
    declared in the profile decoder, outside [hp.go]; the spec describes it
    as a small additive record of [InuseBytes], [InuseObjects] and the
    allocation counts, added field by field. *)
Record Stats : Type := mkStats {
  InuseObjects : Z;
  InuseBytes : Z;
  AllocObjects : Z;
  AllocBytes : Z
}.

Definition Stats_zero : Stats := mkStats 0 0 0 0.

Definition Stats_Add (s o : Stats) : Stats :=
  {| InuseObjects := GoInt.add (InuseObjects s) (InuseObjects o);
     InuseBytes := GoInt.add (InuseBytes s) (InuseBytes o);
     AllocObjects := GoInt.add (AllocObjects s) (AllocObjects o);
     AllocBytes := GoInt.add (AllocBytes s) (AllocBytes o) |}.

(** A cost record with only bytes in use, as the spec's scenarios give it. *)
Definition cost (b : Z) : Stats := mkStats 0 b 0 0.

(** Modelled from the spec: [Stack] is declared in the profile decoder; it
    holds the address sequence [Stack] and the cost record [Stats]. *)
Record Stack : Type := mkStack {
  Stack_Stack : list N;
  Stack_Stats : Stats
}.

(** Addresses are [uint64]; nothing computes with them, they are only
    compared, and they are kept as [N]. *)
Record Node : Type := mkNode {
  addr : N;
  name : string;
  cur : Stats;
  cum : Stats
}.

(** [edge{src, dst *Node}].  A [Node] is allocated in one place only
    ([Analyze], on a miss in [g.nodes]) and stored at once under its address,
    so a [*Node] and the address it carries determine each other; an edge is
    keyed here by the addresses of its two nodes. *)
Abbreviation edge := (N * N)%type.
Definition src (e : edge) : N := fst e.
Definition dst (e : edge) : N := snd e.

Record graph : Type := mkGraph {
  nodes : gmap N Node;
  NodeSizes : list Z;
  edges : gmap edge Z
}.

Record params : Type := mkParams { NodeKeepCount : Z }.

(** The graph [main] starts from: two empty maps. *)
Definition empty_graph : graph := mkGraph ∅ [] ∅.

(** ** graph.Analyze *)

(** Reading a Go map of ints at a missing key gives 0. *)
Definition edge_weight (es : gmap edge Z) (e : edge) : Z := default 0 (es !! e).

(** Reading [names[addr]] at a missing key gives the empty string. *)
Definition name_of (names : gmap N string) (a : N) : string :=
  default EmptyString (names !! a).

(** The body of the inner loop for a frame that is not skipped; [last] is
    the address of the node [last] points to, [None] for the nil pointer. *)
Definition Analyze_visit (names : gmap N string) (stats : Stats)
    (g : graph) (last : option N) (a : N) : graph :=
  let node := match nodes g !! a with
              | Some n => n
              | None => mkNode a (name_of names a) Stats_zero Stats_zero
              end in
  let '(node, es) :=
    match last with
    | None => (mkNode (addr node) (name node) (Stats_Add (cur node) stats) (cum node),
               edges g)
    | Some l => (node,
                 <[(a, l) := GoInt.add (edge_weight (edges g) (a, l)) (InuseBytes stats)]>
                   (edges g))
    end in
  let node := mkNode (addr node) (name node) (cur node) (Stats_Add (cum node) stats) in
  mkGraph (<[a := node]> (nodes g)) (NodeSizes g) es.

(** One iteration of the inner loop: [if last != nil && addr == last.addr
    { continue }], then the body, then [last = node]. *)
Definition Analyze_frame (names : gmap N string) (stats : Stats)
    (st : graph * option N) (a : N) : graph * option N :=
  let '(g, last) := st in
  if decide (last = Some a) then (g, last)
  else (Analyze_visit names stats g last a, Some a).

Definition Analyze_stack (names : gmap N string) (g : graph) (stack : Stack) : graph :=
  fst (foldl (Analyze_frame names (Stack_Stats stack)) (g, None) (Stack_Stack stack)).

Definition Analyze_stacks (names : gmap N string) (g : graph) (stacks : list Stack) : graph :=
  foldl (Analyze_stack names) g stacks.

(** [n.cum.InuseBytes] of every node, in map iteration order. *)
Definition sizes (ns : gmap N Node) : list Z :=
  (λ kn, InuseBytes (cum (snd kn))) <$> map_to_list ns.

(** [nodeSizes]: the sizes that are positive. *)
Definition collect_sizes (ns : gmap N Node) : list Z :=
  filter (λ size, 0 < size) (sizes ns).

(** [sort.Ints]: ascending order. *)
Definition sort_Ints (l : list Z) : list Z := merge_sort Z.le l.

(** [nodeSizes[i], nodeSizes[j] = nodeSizes[j], nodeSizes[i]].  An index
    out of range would panic in Go; the loop below stays in range, and here
    the list is then returned as it is. *)
Definition swap (i j : nat) (l : list Z) : list Z :=
  match l !! i, l !! j with
  | Some x, Some y => <[j := x]> (<[i := y]> l)
  | _, _ => l
  end.

(** The reversing loop: [for i := 0; i < len/2; i++]. *)
Definition reverse_loop (l : list Z) : list Z :=
  foldl (λ acc i, swap i (length l - i - 1) acc) l (seq 0 (length l / 2)).

Definition Analyze (g : graph) (stacks : list Stack) (names : gmap N string) : graph :=
  let g' := Analyze_stacks names g stacks in
  mkGraph (nodes g') (reverse_loop (sort_Ints (collect_sizes (nodes g')))) (edges g').

(** Every node sits under its own address and carries the name [names]
    gives that address. *)
Definition node_fields_ok (names : gmap N string) (g : graph) : Prop :=
  ∀ x n, nodes g !! x = Some n → addr n = x ∧ name n = name_of names x.

(** ** Reading a built graph *)

Inductive field : Type := FInuseObjects | FInuseBytes | FAllocObjects | FAllocBytes.

Definition get (f : field) (s : Stats) : Z :=
  match f with
  | FInuseObjects => InuseObjects s
  | FInuseBytes => InuseBytes s
  | FAllocObjects => AllocObjects s
  | FAllocBytes => AllocBytes s
  end.

Definition cur_at (g : graph) (x : N) : Stats := from_option cur Stats_zero (nodes g !! x).
Definition cum_at (g : graph) (x : N) : Stats := from_option cum Stats_zero (nodes g !! x).

Definition sumZ (l : list Z) : Z := foldr Z.add 0 l.

(** The frames the inner loop of [Analyze] does not skip: those that differ
    from the frame visited just before them. *)
Fixpoint frames (last : option N) (l : list N) : list N :=
  match l with
  | [] => []
  | a :: l' => if decide (last = Some a) then frames last l' else a :: frames (Some a) l'
  end.

Definition occurrences (x : N) (l : list N) : nat := length (filter (λ a, a = x) l).

(** How often the loop visits [x] in one stack. *)
Definition visits (x : N) (stack : Stack) : nat := occurrences x (frames None (Stack_Stack stack)).

(** Whether [x] is the first frame of the stack. *)
Definition leaf_of (x : N) (stack : Stack) : bool := bool_decide (head (Stack_Stack stack) = Some x).

Definition nonneg (s : Stats) : Prop := ∀ f, 0 <= get f s.

(** ** CleanupStacks *)

(** Modelled from the spec: the symbol resolver is declared outside [hp.go];
    it offers [lookup(address) -> optional symbol{name}], a pure function of
    the address. *)
Record Symbol : Type := mkSymbol { Symbol_name : string }.
Record Symbols : Type := mkSymbols { Lookup : N → option Symbol }.

(** The loop state: [addrs], [names], [last], [newstack]. *)
Record cleanup : Type := mkCleanup {
  addrs : gmap string N;
  names : gmap N string;
  last : N;
  newstack : list N
}.

(** One iteration of the inner loop over [stack.Stack]. *)
Definition CleanupStacks_addr (syms : Symbols) (st : cleanup) (a : N) : cleanup :=
  let '(a, addrs', names') :=
    match Lookup syms a with
    | Some sym =>
        let nm := Symbol_name sym in
        let '(a, addrs') :=
          match addrs st !! nm with
          | Some new_addr => (new_addr, addrs st)
          | None => (a, <[nm := a]> (addrs st))
          end in
        (a, addrs', <[a := nm]> (names st))
    | None => (a, addrs st, names st)
    end in
  if decide (a = last st) then mkCleanup addrs' names' (last st) (newstack st)
  else mkCleanup addrs' names' a (newstack st ++ [a]).

(** One iteration of the outer loop: [last] starts at the zero value of
    [uint64], [newstack] at nil, and the stack keeps its cost. *)
Definition CleanupStacks_stack (syms : Symbols)
    (st : gmap string N * gmap N string * list Stack) (stack : Stack)
    : gmap string N * gmap N string * list Stack :=
  let '(addrs0, names0, done) := st in
  let r := foldl (CleanupStacks_addr syms) (mkCleanup addrs0 names0 0%N []) (Stack_Stack stack) in
  (addrs r, names r, done ++ [mkStack (newstack r) (Stack_Stats stack)]).

(** [CleanupStacks] rewrites the stacks in place and returns [names]; here
    it returns the rewritten stacks next to the map. *)
Definition CleanupStacks (stacks : list Stack) (syms : Symbols) : list Stack * gmap N string :=
  let '(_, names', stacks') := foldl (CleanupStacks_stack syms) (∅, ∅, []) stacks in
  (stacks', names').

(** *** What canonicalization computes *)

(** The name the resolver gives an address, if any. *)
Definition symbol_of (syms : Symbols) (a : N) : option string :=
  Symbol_name <$> Lookup syms a.

(** The first address of [l] that resolves to the name [nm]. *)
Definition first_seen (syms : Symbols) (nm : string) (l : list N) : option N :=
  head (filter (λ a, symbol_of syms a = Some nm) l).

(** The canonical address of [a] when the addresses [seen] have been met:
    the first address seen with the name of [a], and [a] itself when it does
    not resolve. *)
Definition canonical (syms : Symbols) (seen : list N) (a : N) : N :=
  match symbol_of syms a with
  | Some nm => default a (first_seen syms nm seen)
  | None => a
  end.

(** The entry of [names] at [a] when the addresses [seen] have been met. *)
Definition name_entry (syms : Symbols) (seen : list N) (a : N) : option string :=
  match symbol_of syms a with
  | Some nm => if decide (first_seen syms nm seen = Some a) then Some nm else None
  | None => None
  end.

(** Dropping every address equal to the one kept before it, [last] being
    the one before the first. *)
Definition collapse (last : N) (l : list N) : list N := frames (Some last) l.

(** All addresses of the stacks, in the order the loops meet them. *)
Definition all_addrs (stacks : list Stack) : list N :=
  mjoin (Stack_Stack <$> stacks).

(** The stack [CleanupStacks] leaves in place of [stack]. *)
Definition cleaned (syms : Symbols) (seen : list N) (stack : Stack) : Stack :=
  mkStack (collapse 0 (canonical syms seen <$> Stack_Stack stack)) (Stack_Stats stack).

(** The two maps of [CleanupStacks] after the addresses [seen] have been
    met: [addrs] holds the first address seen of every name, [names] the
    name of every such address. *)
Definition maps_at (syms : Symbols) (seen : list N)
    (addrs0 : gmap string N) (names0 : gmap N string) : Prop :=
  (∀ nm, addrs0 !! nm = first_seen syms nm seen) ∧
  (∀ a, names0 !! a = name_entry syms seen a).

(** A resolver that gives the addresses 0 and 5 the name f and knows no
    other address. *)
Definition syms_zero : Symbols :=
  mkSymbols (λ a, if decide (a = 0 ∨ a = 5)%N then Some (mkSymbol "f") else None).

(** ** Formatting *)

(** [%d] of an int. *)
Definition fmt_d (z : Z) : string := DecimalString.NilZero.string_of_int (Z.to_int z).

(** [%x] of a uint64. *)
Definition fmt_x (a : N) : string := HexadecimalString.NilZero.string_of_uint (N.to_hex_uint a).

(** [float32]: IEEE 754 binary32, 24 bits of precision. *)
Definition f32_prec : Z := 24.
Definition f32_emax : Z := 128.

(** The conversion [float32(i)] of an int: round to nearest, ties to even. *)
Definition float32_of_int (i : Z) : spec_float := binary_normalize f32_prec f32_emax i 0 false.

Definition float32_div (x y : spec_float) : spec_float := SFdiv f32_prec f32_emax x y.
Definition float32_mul (x y : spec_float) : spec_float := SFmul f32_prec f32_emax x y.

(** Tenths of [m * 2^e], rounded to nearest, ties to even. *)
Definition tenths (m : positive) (e : Z) : Z :=
  let n := Z.pos m * 10 in
  if decide (0 <= e) then n * 2 ^ e
  else
    let d := 2 ^ (- e) in
    let q := n / d in
    let r := n mod d in
    match Z.compare (2 * r) d with
    | Lt => q
    | Eq => if Z.even q then q else q + 1
    | Gt => q + 1
    end.

(** [%.1f] of a float32, as Go's [fmt] prints it: one digit after the point,
    the sign only when negative, and [NaN], [+Inf], [-Inf] for the values
    that are not numbers. *)
Definition fmt_f1 (x : spec_float) : string :=
  match x with
  | S754_nan => "NaN"
  | S754_infinity false => "+Inf"
  | S754_infinity true => "-Inf"
  | S754_zero s => (if s then "-" else EmptyString) +:+ "0.0"
  | S754_finite s m e =>
      let t := tenths m e in
      (if s then "-" else EmptyString) +:+ fmt_d (t / 10) +:+ "." +:+ fmt_d (t mod 10)
  end.

(** ** The rendering state *)

(** Modelled from the spec: [Profile] is declared in the profile decoder; of
    its header only [InuseBytes] is read here, and [maps.Search] gives the
    path of the binary or library that contains an address, if any. *)
Record Profile : Type := mkProfile {
  Header_InuseBytes : Z;
  maps_Search : N → option string;
  stacks : list Stack
}.

(** Modelled from the spec: [demangle(name) -> name | error]; [None] is the
    error. *)
Record Demangler : Type := mkDemangler { Demangle : string → option string }.

Record state : Type := mkState {
  state_Profile : Profile;
  demangler : Demangler;
  Graph : graph;
  Params : params
}.

Section Render.

(** [RemoveTypes] strips template and parameter decoration; it is defined
    outside [hp.go]. *)
Variable RemoveTypes : string → string.

(** [runtime.GOOS]. *)
Variable GOOS : string.

(** [Label]; [check(err)] aborts the run when demangling fails, which is the
    result [None]. *)
Definition Label (s : state) (n : Node) : option string :=
  let label := name n in
  if decide (String.length label = 0%nat) then
    let label := "0x" +:+ fmt_x (addr n) in
    match maps_Search (state_Profile s) (addr n) with
    | Some path => Some (label +:+ " [" +:+ path +:+ "]")
    | None => Some label
    end
  else
    match Demangle (demangler s) label with
    | None => None
    | Some label =>
        let label := RemoveTypes label in
        if decide (60 < String.length label)%nat
        then Some (substring 0 60 label +:+ "...")
        else Some label
    end.

(** The percentage [SizeLabel] prints: [frac * 100.0]. *)
Definition SizeLabel_percent (s : state) (n : Node) : spec_float :=
  let frac := float32_div (float32_of_int (InuseBytes (cum n)))
                          (float32_of_int (Header_InuseBytes (state_Profile s))) in
  float32_mul frac (float32_of_int 100).

Definition SizeLabel (s : state) (n : Node) : string :=
  let cur := InuseBytes (cur n) in
  let cum := InuseBytes (cum n) in
  fmt_d (GoInt.div cur 1024) +:+ "k of " +:+ fmt_d (GoInt.div cum 1024) +:+ "k ("
    +:+ fmt_f1 (SizeLabel_percent s n) +:+ "% of total)".

(** ** GraphViz *)

(** What [GraphViz] writes to [w], one statement per [Fprintf]. *)
Inductive stmt : Type :=
  | Raw (line : string)
  | EdgeStmt (from to : N) (label : Z)
  | NodeStmt (a : N) (label : string).

(** What [GraphViz] logs, one line per [log.Printf]. *)
Inductive logline : Type :=
  | LogKeeping (count threshold_k : Z)
  | LogNoEdges (a : N) (cum_k : Z)
  | LogNotShown (missing_k : Z)
  | LogKept (total_k : Z).

Definition dquote : string := String (ascii_of_nat 34) EmptyString.
Definition newline : string := String (ascii_of_nat 10) EmptyString.

(** [%d] of a uint64. *)
Definition fmt_u (a : N) : string := fmt_d (Z.of_N a).

(** The text of a statement, as [Fprintf] formats it. *)
Definition render (st : stmt) : string :=
  match st with
  | Raw line => line +:+ newline
  | EdgeStmt from to label =>
      fmt_u from +:+ " -> " +:+ fmt_u to +:+ " [label=" +:+ dquote +:+ " "
        +:+ fmt_d label +:+ dquote +:+ "]" +:+ newline
  | NodeStmt a label =>
      fmt_u a +:+ " [label=" +:+ dquote +:+ label +:+ dquote +:+ ",shape=box,href="
        +:+ dquote +:+ fmt_u a +:+ dquote +:+ "]" +:+ newline
  end.

(** The outcome of a run: what reached [w], what was logged, and whether
    the run reached its end ([false]: it stopped in a panic). *)
Record run : Type := mkRun {
  written : list stmt;
  logged : list logline;
  finished : bool
}.

Definition preamble : list stmt :=
  [Raw "digraph G {"; Raw "nodesep = 0.2"; Raw "ranksep = 0.3"]
  ++ (if decide (GOOS = "darwin") then [Raw "node [fontname = Menlo]"] else [])
  ++ [Raw "node [fontsize=9]"; Raw "edge [fontsize=9]"].

(** [nodeSizeThreshold]; indexing [g.NodeSizes] below zero panics, which is
    the result [None]. *)
Definition nodeSizeThreshold (g : graph) (p : params) : option Z :=
  if decide (NodeKeepCount p < Z.of_nat (length (NodeSizes g))) then
    if decide (0 <= NodeKeepCount p) then NodeSizes g !! Z.to_nat (NodeKeepCount p)
    else None
  else Some 0.

(** [keptNodes]: the nodes at or above the threshold. *)
Definition keptNodes (g : graph) (threshold : Z) : gmap N Node :=
  filter (λ kn, threshold <= InuseBytes (cum (snd kn))) (nodes g).

(** The edges both of whose ends are kept, in map iteration order. *)
Definition edges_between (g : graph) (kept : gmap N Node) : list edge :=
  filter (λ e, is_Some (kept !! src e) ∧ is_Some (kept !! dst e))
         (fst <$> map_to_list (edges g)).

(** Modelled from the spec: [Sort] is declared outside [hp.go]; it orders
    the list by ascending key. *)
Definition Sort {A : Type} (l : list A) (key : A → Z) : list A :=
  @merge_sort A (λ x y, key x <= key y) (λ x y, decide (key x <= key y)) l.

(** The sort key of an edge: [-g.edges[e]]. *)
Definition edge_key (g : graph) (e : edge) : Z := GoInt.wrap (- edge_weight (edges g) e).

(** Reading a degree map at a missing key gives 0.  A degree counts edges
    of one list, whose length is an int, so the increments cannot wrap. *)
Definition degree (m : gmap N Z) (a : N) : Z := default 0 (m !! a).

Record degrees : Type := mkDegrees {
  indegree : gmap N Z;
  outdegree : gmap N Z;
  emitted : list stmt
}.

(** One iteration of the loop over [edgelist]. *)
Definition GraphViz_edge (g : graph) (st : degrees) (e : edge) : degrees :=
  let size := edge_weight (edges g) e in
  let keep :=
    mkDegrees (<[dst e := degree (indegree st) (dst e) + 1]> (indegree st))
              (<[src e := degree (outdegree st) (src e) + 1]> (outdegree st))
              (emitted st ++ [EdgeStmt (src e) (dst e) (GoInt.div size 1024)]) in
  if decide (degree (indegree st) (dst e) = 0) then keep
  else if decide (GoInt.div size 1024 < 30) then st
  else keep.

Record totals : Type := mkTotals {
  total : Z;
  missing : Z;
  node_stmts : list stmt;
  node_log : list logline
}.

(** The loop over [keptNodes]; it stops at the first label that cannot be
    made, with [false] as second component. *)
Fixpoint GraphViz_nodes (s : state) (d : degrees) (kl : list (N * Node))
    (t : totals) : totals * bool :=
  match kl with
  | [] => (t, true)
  | (_, n) :: kl' =>
      if decide (degree (indegree d) (addr n) = 0 ∧ degree (outdegree d) (addr n) = 0) then
        GraphViz_nodes s d kl'
          (mkTotals (total t) (GoInt.add (missing t) (InuseBytes (cum n))) (node_stmts t)
             (node_log t ++ [LogNoEdges (addr n) (GoInt.div (InuseBytes (cum n)) 1024)]))
      else
        let total' := GoInt.add (total t) (InuseBytes (cur n)) in
        match Label s n with
        | None => (mkTotals total' (missing t) (node_stmts t) (node_log t), false)
        | Some l =>
            let label := l +:+ "\n" +:+ SizeLabel s n in
            GraphViz_nodes s d kl'
              (mkTotals total' (missing t) (node_stmts t ++ [NodeStmt (addr n) label])
                 (node_log t))
        end
  end.

(** [GraphViz] after the threshold is known, for a given order [edgelist] of
    the sorted edges and a given iteration order [keptlist] of [keptNodes]. *)
Definition GraphViz_from (s : state) (threshold : Z) (edgelist : list edge)
    (keptlist : list (N * Node)) : run :=
  let g := Graph s in
  let log0 := [LogKeeping (NodeKeepCount (Params s)) (GoInt.div threshold 1024)] in
  let d := foldl (GraphViz_edge g) (mkDegrees ∅ ∅ []) edgelist in
  let '(t, ok) := GraphViz_nodes s d keptlist (mkTotals 0 0 [] []) in
  if ok then
    mkRun (preamble ++ emitted d ++ node_stmts t ++ [Raw "}"])
          (log0 ++ node_log t
             ++ [LogNotShown (GoInt.div (missing t) 1024); LogKept (GoInt.div (total t) 1024)])
          true
  else mkRun (preamble ++ emitted d ++ node_stmts t) (log0 ++ node_log t) false.

(** [GraphViz], with the maps iterated in the order of [map_to_list]. *)
Definition GraphViz (s : state) : run :=
  let g := Graph s in
  match nodeSizeThreshold g (Params s) with
  | None => mkRun preamble [] false
  | Some threshold =>
      let kept := keptNodes g threshold in
      GraphViz_from s threshold (Sort (edges_between g kept) (edge_key g)) (map_to_list kept)
  end.

(** Go iterates a map in an order it does not fix, and [Sort] need not be
    stable: every order of the kept nodes, and every order of the kept edges
    that ascends in the key, is a possible run. *)
Inductive GraphViz_run (s : state) : run → Prop :=
  | GraphViz_run_panic :
      nodeSizeThreshold (Graph s) (Params s) = None →
      GraphViz_run s (mkRun preamble [] false)
  | GraphViz_run_from threshold edgelist keptlist :
      nodeSizeThreshold (Graph s) (Params s) = Some threshold →
      edgelist ≡ₚ edges_between (Graph s) (keptNodes (Graph s) threshold) →
      Sorted (λ x y, edge_key (Graph s) x <= edge_key (Graph s) y) edgelist →
      keptlist ≡ₚ map_to_list (keptNodes (Graph s) threshold) →
      GraphViz_run s (GraphViz_from s threshold edgelist keptlist).

End Render.

(** ** Scenarios of the specification *)

(** Three stacks: [A,B] of cost 100, [A,B] of cost 50, [A,C] of cost 10. *)
Definition scenario (A B C : N) : list Stack :=
  [mkStack [A; B] (cost 100); mkStack [A; B] (cost 50); mkStack [A; C] (cost 10)].

(** The bytes in use a node carries: exclusive and inclusive. *)
Definition node_costs (g : graph) (x : N) : option (Z * Z) :=
  (λ n, (InuseBytes (cur n), InuseBytes (cum n))) <$> nodes g !! x.

(** What the specification expects of the scenario: A(cur=0, cum=160),
    B(cur=150, cum=150), C(cur=10, cum=10), and the edges B→A = 150 and
    C→A = 10, or both of them mirrored. *)
Definition scenario_expected (A B C : N) : Prop :=
  let g := Analyze empty_graph (scenario A B C) ∅ in
  node_costs g A = Some (0, 160) ∧ node_costs g B = Some (150, 150) ∧
  node_costs g C = Some (10, 10) ∧
  ((edges g !! (B, A) = Some 150 ∧ edges g !! (C, A) = Some 10) ∨
   (edges g !! (A, B) = Some 150 ∧ edges g !! (A, C) = Some 10)).

(** ** Cost accounting, as the specification states it *)

Definition contains (x : N) (stack : Stack) : bool := bool_decide (x ∈ Stack_Stack stack).

(** The costs of the stacks that contain [x], each stack counted once. *)
Definition cost_of_stacks_containing (f : field) (x : N) (stacks : list Stack) : Z :=
  sumZ ((λ s, if contains x s then get f (Stack_Stats s) else 0) <$> stacks).

(** The costs of the stacks, each counted once for every visit of [x]. *)
Definition cost_of_visits (f : field) (x : N) (stacks : list Stack) : Z :=
  sumZ ((λ s, get f (Stack_Stats s) * Z.of_nat (visits x s)) <$> stacks).

(** What the specification expects of [cum]: every stack that contains the
    node counts once. *)
Definition cum_once_per_stack (stacks : list Stack) : Prop :=
  ∀ names x n f,
    nodes (Analyze empty_graph stacks names) !! x = Some n →
    get f (cum n) = cost_of_stacks_containing f x stacks.

(** The costs of the stacks whose first frame is [x]. *)
Definition cost_of_leaves (f : field) (x : N) (stacks : list Stack) : Z :=
  sumZ ((λ s, if leaf_of x s then get f (Stack_Stats s) else 0) <$> stacks).

(** The exclusive costs of all nodes, summed. *)
Definition total_cur (f : field) (g : graph) : Z :=
  sumZ ((λ kn, get f (cur (snd kn))) <$> map_to_list (nodes g)).

(** The costs of all stacks, summed. *)
Definition total_cost (f : field) (stacks : list Stack) : Z :=
  sumZ ((λ s, get f (Stack_Stats s)) <$> stacks).

(** The costs of the stacks that have a frame, summed. *)
Definition total_cost_framed (f : field) (stacks : list Stack) : Z :=
  sumZ ((λ s, match Stack_Stack s with [] => 0 | _ :: _ => get f (Stack_Stats s) end)
        <$> stacks).

(** The costs of the stacks, each counted once per frame: a bound on every
    sum [Analyze] accumulates. *)
Definition total_cost_by_frame (f : field) (stacks : list Stack) : Z :=
  sumZ ((λ s, get f (Stack_Stats s) * Z.of_nat (length (Stack_Stack s))) <$> stacks).

(** What the specification expects of cost conservation. *)
Definition cost_conservation (stacks : list Stack) : Prop :=
  (∀ s, s ∈ stacks → nonneg (Stack_Stats s)) →
  ∀ names,
    let g := Analyze empty_graph stacks names in
    (∀ x n f, nodes g !! x = Some n → get f (cur n) <= get f (cum n)) ∧
    ∀ f, total_cur f g = total_cost f stacks.

(** ** Size labels on an empty profile *)

(** The label around a given percentage text. *)
Definition SizeLabel_with (n : Node) (percent : string) : string :=
  fmt_d (GoInt.div (InuseBytes (cur n)) 1024) +:+ "k of "
    +:+ fmt_d (GoInt.div (InuseBytes (cum n)) 1024) +:+ "k ("
    +:+ percent +:+ "% of total)".

(** What the specification expects when the profile-wide total is 0: the
    division is guarded and the percentage is printed as 0.0. *)
Definition SizeLabel_guarded (s : state) (n : Node) : Prop :=
  Header_InuseBytes (state_Profile s) = 0 → SizeLabel s n = SizeLabel_with n "0.0".

(** A state over a profile without stacks, as an empty input gives it. *)
Definition empty_state : state :=
  mkState (mkProfile 0 (λ _, None) []) (mkDemangler Some) empty_graph (mkParams 100).

(** ** Rendered output *)

(** Whether an edge statement starts or ends at [a]. *)
Definition touches (a : N) (st : stmt) : bool :=
  match st with
  | EdgeStmt from to _ => bool_decide (from = a ∨ to = a)
  | _ => false
  end.

(** Whether the output has an edge statement at [a]. *)
Definition has_edge (out : list stmt) (a : N) : bool := existsb (touches a) out.


(** The degree maps agree with the edge statements emitted so far. *)
Definition degrees_ok (d : degrees) : Prop :=
  (∀ st, st ∈ emitted d → ∃ from to w, st = EdgeStmt from to w) ∧
  (∀ a, 0 <= degree (indegree d) a ∧
        (degree (indegree d) a ≠ 0 ↔ ∃ from w, EdgeStmt from a w ∈ emitted d)) ∧
  (∀ a, 0 <= degree (outdegree d) a ∧
        (degree (outdegree d) a ≠ 0 ↔ ∃ to w, EdgeStmt a to w ∈ emitted d)).

(** The state after [main] has built the graph of the three-stack scenario
    from a profile whose header counts 160 bytes in use. *)
Definition scenario_state : state :=
  mkState (mkProfile 160 (λ _, None) (scenario 1 2 3)) (mkDemangler Some)
          (Analyze empty_graph (scenario 1 2 3) ∅) (mkParams 100).

(** ** Shapes of stacks and paths *)

(** No address of [l] equals the one before it, [last] being the one before
    the first. *)
Fixpoint no_adjacent (last : option N) (l : list N) : Prop :=
  match l with
  | [] => True
  | a :: l' => last ≠ Some a ∧ no_adjacent (Some a) l'
  end.

(** The steps of a path: every address paired with the one before it, as
    [Analyze] pairs [node] with [last]. *)
Definition steps (l : list N) : list edge := zip (tail l) l.

(** How often the loop of [Analyze] walks the edge [e] in one stack. *)
Definition walks (e : edge) (stack : Stack) : nat :=
  length (filter (λ e', e' = e) (steps (frames None (Stack_Stack stack)))).

(** The weights of the stacks, each counted once for every walk of [e]. *)
Definition weight_of_walks (e : edge) (stacks : list Stack) : Z :=
  sumZ ((λ s, InuseBytes (Stack_Stats s) * Z.of_nat (walks e s)) <$> stacks).

(** The statement [GraphViz] writes for an edge it keeps. *)
Definition edge_stmt (g : graph) (e : edge) : stmt :=
  EdgeStmt (src e) (dst e) (GoInt.div (edge_weight (edges g) e) 1024).

(** The edges handled so far, the statements emitted for them, and the
    floors of the edge loop: a statement comes from an edge handled; an edge
    of 30k or more has its statement; and every edge handled has, into its
    destination, the statement of an edge that does not come after it in the
    order of the keys. *)
Definition edges_handled (g : graph) (handled : list edge) (d : degrees) : Prop :=
  degrees_ok d ∧
  (∀ st, st ∈ emitted d → ∃ e, e ∈ handled ∧ st = edge_stmt g e) ∧
  (∀ e, e ∈ handled →
     (30 <= GoInt.div (edge_weight (edges g) e) 1024 → edge_stmt g e ∈ emitted d) ∧
     ∃ e', e' ∈ handled ∧ edge_stmt g e' ∈ emitted d ∧ dst e' = dst e ∧
           edge_key g e' <= edge_key g e).

(** The kept nodes that an edge statement of the output reaches. *)
Definition shown (out : list stmt) (kept : list (N * Node)) : list (N * Node) :=
  filter (λ kn, has_edge out (addr (snd kn)) = true) kept.

(** Whether both degrees of a node are zero, as the node loop tests it. *)
Definition no_degree (d : degrees) (n : Node) : Prop :=
  degree (indegree d) (addr n) = 0 ∧ degree (outdegree d) (addr n) = 0.

(** ** main *)

Section Main.
Variable RemoveTypes : string → string.
Variable GOOS : string.

(** The state [main] builds once the profile and the symbols are loaded:
    the stacks are cleaned where they lie, so the profile holds the cleaned
    stacks; the graph starts from two empty maps; the keep count is 100.
    Flags, files, the two loading goroutines and the log lines of [main]
    are left out. *)
Definition main_state (profile : Profile) (syms : Symbols) (dem : Demangler) : state :=
  let r := CleanupStacks (stacks profile) syms in
  mkState (mkProfile (Header_InuseBytes profile) (maps_Search profile) (fst r))
          dem
          (Analyze empty_graph (fst r) (snd r))
          (mkParams 100).

(** What [main] writes to the standard output when no http address is
    given. *)
Definition main_output (profile : Profile) (syms : Symbols) (dem : Demangler) : run :=
  GraphViz RemoveTypes GOOS (main_state profile syms dem).

End Main.

(** The weights of the edges of the graph that start at [x], summed. *)
Definition out_weight (g : graph) (x : N) : Z :=
  sumZ (snd <$> filter (λ ew, src (fst ew) = x) (map_to_list (edges g))).

(** * Properties *)

(** ** Wrap-around arithmetic *)
Section wrap.
Import GoInt.

Lemma wrap_small z : in_range z → wrap z = z.
Proof.
  unfold in_range, min_int, max_int, wrap. intros H.
  rewrite Z.mod_small; lia.
Qed.

Lemma wrap_in_range z : in_range (wrap z).
Proof.
  unfold in_range, min_int, max_int, wrap.
  pose proof (Z.mod_pos_bound (z + 2 ^ 63) (2 ^ 64)). lia.
Qed.

Lemma wrap_wrap z : wrap (wrap z) = wrap z.
Proof. apply wrap_small, wrap_in_range. Qed.

Lemma wrap_add_l a b : wrap (wrap a + b) = wrap (a + b).
Proof.
  unfold wrap.
  replace ((a + 2 ^ 63) mod 2 ^ 64 - 2 ^ 63 + b + 2 ^ 63)
    with ((a + 2 ^ 63) mod 2 ^ 64 + b) by lia.
  rewrite Zplus_mod_idemp_l. f_equal. f_equal. lia.
Qed.

Lemma wrap_add_r a b : wrap (a + wrap b) = wrap (a + b).
Proof. rewrite (Z.add_comm a), wrap_add_l. f_equal. lia. Qed.

Lemma iter_add_wrap (k : nat) c v :
  wrap v = v → Nat.iter k (λ v, add v c) v = wrap (v + c * Z.of_nat k).
Proof.
  intros Hv. induction k as [|k IH].
  - simpl. rewrite Z.mul_0_r, Z.add_0_r. done.
  - rewrite Nat.iter_succ, IH. unfold add. rewrite wrap_add_l. f_equal. lia.
Qed.

End wrap.

(** ** The graph builder, frame by frame *)
Section analyze.
Context (names : gmap N string).

Lemma get_Add f s o : get f (Stats_Add s o) = GoInt.add (get f s) (get f o).
Proof. by destruct f. Qed.

Lemma get_zero f : get f Stats_zero = 0.
Proof. by destruct f. Qed.

Lemma cum_at_visit stats g last a x :
  cum_at (Analyze_visit names stats g last a) x =
    if decide (x = a) then Stats_Add (cum_at g x) stats else cum_at g x.
Proof.
  unfold cum_at, Analyze_visit.
  destruct last as [l|]; simpl; case_decide as Hx; subst;
    rewrite ?lookup_insert_eq, ?lookup_insert_ne by done; try done;
    by destruct (nodes g !! a).
Qed.

Lemma cur_at_visit stats g last a x :
  cur_at (Analyze_visit names stats g last a) x =
    if decide (x = a ∧ last = None) then Stats_Add (cur_at g x) stats else cur_at g x.
Proof.
  unfold cur_at, Analyze_visit.
  destruct last as [l|]; simpl; case_decide as Hx;
    try (destruct Hx as [-> ?]); try done.
  - destruct (decide (x = a)) as [->|].
    + rewrite lookup_insert_eq. by destruct (nodes g !! a).
    + by rewrite lookup_insert_ne.
  - rewrite lookup_insert_eq. by destruct (nodes g !! a).
  - rewrite lookup_insert_ne; [done|]. intros ->. by apply Hx.
Qed.

Lemma nodes_visit stats g last a x :
  is_Some (nodes (Analyze_visit names stats g last a) !! x) ↔
    x = a ∨ is_Some (nodes g !! x).
Proof.
  unfold Analyze_visit. destruct last as [l|]; simpl;
    (destruct (decide (x = a)) as [->|];
     [rewrite lookup_insert_eq; split; [by left|by eexists]
     |rewrite lookup_insert_ne by done; naive_solver]).
Qed.

Lemma occurrences_cons x a l :
  occurrences x (a :: l) = ((if decide (a = x) then 1 else 0) + occurrences x l)%nat.
Proof. unfold occurrences. rewrite filter_cons. by case_decide. Qed.

Lemma cum_at_frames f stats x l : ∀ g last,
  get f (cum_at (fst (foldl (Analyze_frame names stats) (g, last) l)) x) =
    Nat.iter (occurrences x (frames last l)) (λ v, GoInt.add v (get f stats))
      (get f (cum_at g x)).
Proof.
  induction l as [|a l IH]; intros g last; [done|].
  simpl. case_decide as Hl; [by apply IH|].
  rewrite IH, cum_at_visit, occurrences_cons.
  destruct (decide (x = a)) as [->|Hx].
  - rewrite decide_True by done. rewrite Nat.add_comm, Nat.add_1_r, Nat.iter_succ_r.
    by rewrite get_Add.
  - rewrite decide_False by done. done.
Qed.

Lemma cur_at_frames_Some stats x l : ∀ g b,
  cur_at (fst (foldl (Analyze_frame names stats) (g, Some b) l)) x = cur_at g x.
Proof.
  induction l as [|a l IH]; intros g b; [done|].
  simpl. case_decide as Hl; [by apply IH|].
  rewrite IH, cur_at_visit. by rewrite decide_False by naive_solver.
Qed.

Lemma cur_at_stack g stack x :
  cur_at (Analyze_stack names g stack) x =
    if leaf_of x stack then Stats_Add (cur_at g x) (Stack_Stats stack) else cur_at g x.
Proof.
  unfold Analyze_stack, leaf_of. destruct stack as [[|a l] stats]; simpl; [done|].
  rewrite cur_at_frames_Some, cur_at_visit.
  destruct (decide (x = a)) as [->|Hx].
  - by rewrite decide_True, bool_decide_eq_true_2.
  - rewrite decide_False by naive_solver. rewrite bool_decide_eq_false_2; [done|].
    intros [=]. done.
Qed.

Lemma frames_elem_of x l : ∀ last, x ∈ frames last l → x ∈ l.
Proof.
  induction l as [|a l IH]; intros last; simpl; [done|].
  case_decide; [right; eauto|].
  intros [->|?]%elem_of_cons; [left|right; eauto].
Qed.

Lemma elem_of_frames x l : ∀ last, x ∈ l → last = Some x ∨ x ∈ frames last l.
Proof.
  induction l as [|a l IH]; intros last; simpl; [by intros ?%elem_of_nil|].
  intros [->|Hx]%elem_of_cons.
  - case_decide; [by left|right; left].
  - case_decide.
    + by apply IH.
    + destruct (IH (Some a) Hx) as [[= ->]|?]; right; [left|by right].
Qed.

Lemma frames_None_elem_of x l : x ∈ frames None l ↔ x ∈ l.
Proof.
  split; [apply frames_elem_of|]. intros H.
  by destruct (elem_of_frames x l None H).
Qed.

Lemma nodes_frames stats x l : ∀ g last,
  is_Some (nodes (fst (foldl (Analyze_frame names stats) (g, last) l)) !! x) ↔
    is_Some (nodes g !! x) ∨ x ∈ frames last l.
Proof.
  induction l as [|a l IH]; intros g last; simpl.
  - rewrite elem_of_nil. naive_solver.
  - case_decide; [by apply IH|].
    rewrite IH, nodes_visit, elem_of_cons. naive_solver.
Qed.

Lemma sumZ_cons a l : sumZ (a :: l) = a + sumZ l.
Proof. done. Qed.

Lemma sumZ_app l1 l2 : sumZ (l1 ++ l2) = sumZ l1 + sumZ l2.
Proof. induction l1 as [|a l1 IH]; [done|]. rewrite <- app_comm_cons, !sumZ_cons. lia. Qed.

Lemma Analyze_stacks_cons g s stacks :
  Analyze_stacks names g (s :: stacks) = Analyze_stacks names (Analyze_stack names g s) stacks.
Proof. done. Qed.

Lemma nodes_stack g stack x :
  is_Some (nodes (Analyze_stack names g stack) !! x) ↔
    is_Some (nodes g !! x) ∨ x ∈ Stack_Stack stack.
Proof. unfold Analyze_stack. by rewrite nodes_frames, frames_None_elem_of. Qed.

Lemma nodes_stacks stacks x : ∀ g,
  is_Some (nodes (Analyze_stacks names g stacks) !! x) ↔
    is_Some (nodes g !! x) ∨ ∃ s, s ∈ stacks ∧ x ∈ Stack_Stack s.
Proof.
  induction stacks as [|s stacks IH]; intros g; simpl.
  - split; [by left|]. intros [?|(s & []%elem_of_nil & _)]. done.
  - rewrite IH, nodes_stack. split.
    + intros [[?|?]|(s' & ? & ?)]; [by left|right..].
      * exists s. split; [left|done].
      * exists s'. split; [by right|done].
    + intros [?|(s' & [->|?]%elem_of_cons & ?)]; [by left; left|by left; right|].
      right. by exists s'.
Qed.

(** The inclusive cost after a list of stacks: each stack adds its cost once
    for every visit of the node. *)
Lemma cum_at_stacks f x stacks : ∀ g,
  GoInt.wrap (get f (cum_at g x)) = get f (cum_at g x) →
  get f (cum_at (Analyze_stacks names g stacks) x) =
    GoInt.wrap (get f (cum_at g x)
      + sumZ ((λ s, get f (Stack_Stats s) * Z.of_nat (visits x s)) <$> stacks)).
Proof.
  induction stacks as [|s stacks IH]; intros g Hg.
  - simpl. by rewrite Z.add_0_r.
  - rewrite fmap_cons, sumZ_cons, Analyze_stacks_cons.
    assert (get f (cum_at (Analyze_stack names g s) x) =
      GoInt.wrap (get f (cum_at g x) + get f (Stack_Stats s) * Z.of_nat (visits x s)))
      as Hs.
    { unfold Analyze_stack. rewrite cum_at_frames. by apply iter_add_wrap. }
    rewrite IH; rewrite Hs.
    + rewrite wrap_add_l. f_equal. lia.
    + apply wrap_wrap.
Qed.

(** The exclusive cost after a list of stacks: each stack adds its cost to
    its first frame. *)
Lemma cur_at_stacks f x stacks : ∀ g,
  GoInt.wrap (get f (cur_at g x)) = get f (cur_at g x) →
  get f (cur_at (Analyze_stacks names g stacks) x) =
    GoInt.wrap (get f (cur_at g x)
      + sumZ ((λ s, if leaf_of x s then get f (Stack_Stats s) else 0) <$> stacks)).
Proof.
  induction stacks as [|s stacks IH]; intros g Hg.
  - simpl. by rewrite Z.add_0_r.
  - rewrite fmap_cons, sumZ_cons, Analyze_stacks_cons.
    rewrite IH; rewrite cur_at_stack; destruct (leaf_of x s).
    + rewrite get_Add. unfold GoInt.add. rewrite wrap_add_l. f_equal; lia.
    + f_equal; lia.
    + rewrite get_Add. apply wrap_wrap.
    + done.
Qed.

End analyze.

(** ** The three-stack scenario *)

Lemma Stats_Add_cost a b : Stats_Add (cost a) (cost b) = cost (GoInt.add a b).
Proof. done. Qed.

Lemma Stats_zero_cost : Stats_zero = cost 0.
Proof. done. Qed.

(** C1, as the specification states it, fails: the first frame of a stack
    is the one that receives the exclusive cost, so in the scenario it is A,
    not B and C, that carries [cur]. *)
Lemma scenario_expected_fails : ¬ scenario_expected 1 2 3.
Proof. intros (HA & _). vm_compute in HA. discriminate HA. Qed.

Lemma scenario_nodes (A B C : N) (names : gmap N string) :
  A ≠ B → A ≠ C → B ≠ C →
  nodes (Analyze_stacks names empty_graph (scenario A B C)) =
    {[ A := mkNode A (name_of names A) (cost 160) (cost 160);
       B := mkNode B (name_of names B) (cost 0) (cost 150);
       C := mkNode C (name_of names C) (cost 0) (cost 10) ]}.
Proof.
  intros HAB HAC HBC.
  unfold scenario, Analyze_stacks, Analyze_stack. simpl.
  rewrite !decide_False by congruence. simpl.
  unfold Analyze_visit. simpl.
  repeat (rewrite ?lookup_insert_eq, ?lookup_insert_ne, ?lookup_empty by done; simpl).
  rewrite Stats_zero_cost, !Stats_Add_cost.
  change (GoInt.add (GoInt.add (GoInt.add 0 100) 50) 10) with 160.
  change (GoInt.add (GoInt.add 0 100) 50) with 150.
  change (GoInt.add 0 100) with 100. change (GoInt.add 0 10) with 10.
  apply map_eq. intros k.
  destruct (decide (k = A)) as [->|]; [by simplify_map_eq|].
  destruct (decide (k = B)) as [->|]; [by simplify_map_eq|].
  destruct (decide (k = C)) as [->|]; by simplify_map_eq.
Qed.

Lemma scenario_edges (A B C : N) (names : gmap N string) :
  A ≠ B → A ≠ C → B ≠ C →
  edges (Analyze_stacks names empty_graph (scenario A B C)) =
    {[ (B, A) := 150; (C, A) := 10 ]}.
Proof.
  intros HAB HAC HBC.
  unfold scenario, Analyze_stacks, Analyze_stack. simpl.
  rewrite !decide_False by congruence. simpl.
  unfold Analyze_visit, edge_weight. simpl.
  repeat (rewrite ?lookup_insert_eq, ?lookup_insert_ne, ?lookup_empty by congruence; simpl).
  change (GoInt.add (GoInt.add 0 100) 50) with 150.
  change (GoInt.add 0 10) with 10.
  apply map_eq. intros k.
  assert ((C, A) ≠ (B, A)) by congruence.
  destruct (decide (k = (B, A))) as [->|]; [by simplify_map_eq|].
  destruct (decide (k = (C, A))) as [->|]; by simplify_map_eq.
Qed.

(** C1, amended: for distinct addresses A, B, C the graph built from the
    stacks [A,B] (100), [A,B] (50), [A,C] (10) has exactly the nodes
    A(cur=160, cum=160), B(cur=0, cum=150), C(cur=0, cum=10) and exactly the
    edges B→A = 150 and C→A = 10. *)
Theorem scenario_graph (A B C : N) (names : gmap N string) :
  A ≠ B → A ≠ C → B ≠ C →
  let g := Analyze empty_graph (scenario A B C) names in
  nodes g = {[ A := mkNode A (name_of names A) (cost 160) (cost 160);
               B := mkNode B (name_of names B) (cost 0) (cost 150);
               C := mkNode C (name_of names C) (cost 0) (cost 10) ]} ∧
  edges g = {[ (B, A) := 150; (C, A) := 10 ]}.
Proof.
  intros HAB HAC HBC g. split.
  - by apply scenario_nodes.
  - by apply scenario_edges.
Qed.

Lemma scenario_graph_witness :
  (1 ≠ 2 ∧ 1 ≠ 3 ∧ 2 ≠ 3)%N ∧
  let g := Analyze empty_graph (scenario 1 2 3) ∅ in
  nodes g = {[ 1%N := mkNode 1 (name_of ∅ 1) (cost 160) (cost 160);
               2%N := mkNode 2 (name_of ∅ 2) (cost 0) (cost 150);
               3%N := mkNode 3 (name_of ∅ 3) (cost 0) (cost 10) ]} ∧
  edges g = {[ (2%N, 1%N) := 150; (3%N, 1%N) := 10 ]}.
Proof.
  split; [repeat split; discriminate|].
  apply (scenario_graph 1 2 3 ∅); discriminate.
Defined.

(** ** The size list: sorting and the reversing loop *)

Lemma swap_length i j l : length (swap i j l) = length l.
Proof.
  unfold swap. destruct (l !! i), (l !! j); try done.
  by rewrite !length_insert.
Qed.

Lemma reverse_loop_prefix (l : list Z) (k : nat) :
  (2 * k ≤ length l)%nat →
  length (foldl (λ acc i, swap i (length l - i - 1) acc) l (seq 0 k)) = length l ∧
  ∀ i, (i < length l)%nat →
    foldl (λ acc i, swap i (length l - i - 1) acc) l (seq 0 k) !! i =
      if decide (i < k ∨ length l - k ≤ i)%nat
      then l !! (length l - 1 - i)%nat else l !! i.
Proof.
  induction k as [|k IH]; intros Hk.
  - simpl. split; [done|]. intros i Hi. rewrite decide_False; [done|lia].
  - rewrite seq_S, foldl_app. simpl.
    destruct IH as [Hlen Hacc]; [lia|].
    set (acc := foldl _ l (seq 0 k)) in *.
    split; [by rewrite swap_length|].
    intros i Hi. unfold swap.
    assert (k < length l - k - 1 < length l)%nat as Hj by lia.
    rewrite (Hacc k), (Hacc (length l - k - 1)%nat) by lia.
    rewrite !decide_False by lia.
    destruct (lookup_lt_is_Some_2 l k) as [x Hx]; [lia|].
    destruct (lookup_lt_is_Some_2 l (length l - k - 1)%nat) as [y Hy]; [lia|].
    rewrite Hx, Hy.
    destruct (decide (i = length l - k - 1)%nat) as [->|Hij].
    + rewrite list_lookup_insert_eq by (rewrite length_insert; lia).
      rewrite decide_True by lia. rewrite <- Hx. f_equal. lia.
    + rewrite list_lookup_insert_ne by done.
      destruct (decide (i = k)) as [->|Hik].
      * rewrite list_lookup_insert_eq by lia.
        rewrite decide_True by lia. rewrite <- Hy. f_equal. lia.
      * rewrite list_lookup_insert_ne by done. rewrite Hacc by done.
        repeat case_decide; try done; lia.
Qed.

(** The swap loop reverses the list. *)
Lemma reverse_loop_reverse (l : list Z) : reverse_loop l = reverse l.
Proof.
  pose proof (Nat.div_mod_eq (length l) 2) as Hdiv.
  pose proof (Nat.mod_upper_bound (length l) 2) as Hmod.
  destruct (reverse_loop_prefix l (length l / 2)) as [Hlen Hacc]; [lia|].
  fold (reverse_loop l) in Hlen, Hacc.
  apply list_eq. intros i.
  destruct (decide (i < length l)%nat) as [Hi|Hi].
  - rewrite Hacc, reverse_lookup by done.
    case_decide; f_equal; lia.
  - rewrite !lookup_ge_None_2; [done|rewrite length_reverse; lia|lia].
Qed.

Lemma sort_Ints_Sorted l : Sorted Z.le (sort_Ints l).
Proof. apply (Sorted_merge_sort Z.le). Qed.

Lemma sort_Ints_Permutation l : sort_Ints l ≡ₚ l.
Proof. apply (merge_sort_Permutation Z.le). Qed.

(** Sorting forgets the order in which the map was iterated. *)
Lemma sort_Ints_order l1 l2 : l1 ≡ₚ l2 → sort_Ints l1 = sort_Ints l2.
Proof.
  intros Hp. apply (Sorted_unique Z.le); try apply sort_Ints_Sorted.
  by rewrite !sort_Ints_Permutation.
Qed.

Lemma NodeSizes_Analyze g0 stacks names :
  NodeSizes (Analyze g0 stacks names) =
    reverse (sort_Ints (collect_sizes (nodes (Analyze g0 stacks names)))).
Proof. unfold Analyze. simpl. apply reverse_loop_reverse. Qed.


Lemma NodeSizes_Permutation g0 stacks names :
  NodeSizes (Analyze g0 stacks names) ≡ₚ collect_sizes (nodes (Analyze g0 stacks names)).
Proof. by rewrite NodeSizes_Analyze, reverse_Permutation, sort_Ints_Permutation. Qed.


(** ** Node selection *)

Lemma keptNodes_lookup g thr k n :
  keptNodes g thr !! k = Some n ↔ nodes g !! k = Some n ∧ thr <= InuseBytes (cum n).
Proof. unfold keptNodes. by rewrite map_lookup_filter_Some. Qed.

Lemma nodeSizeThreshold_index g p thr :
  0 <= NodeKeepCount p →
  NodeSizes g !! Z.to_nat (NodeKeepCount p) = Some thr →
  nodeSizeThreshold g p = Some thr.
Proof.
  intros HK Hthr. unfold nodeSizeThreshold.
  apply lookup_lt_Some in Hthr as Hlt.
  rewrite decide_True by lia. by rewrite decide_True.
Qed.

Lemma nodeSizeThreshold_short g p :
  (length (NodeSizes g) ≤ Z.to_nat (NodeKeepCount p))%nat →
  0 <= NodeKeepCount p →
  nodeSizeThreshold g p = Some 0.
Proof. intros Hlen HK. unfold nodeSizeThreshold. rewrite decide_False; [done|lia]. Qed.

(** Indexing below zero panics: no threshold, no selection. *)
Lemma nodeSizeThreshold_negative g p :
  NodeKeepCount p < 0 → nodeSizeThreshold g p = None.
Proof.
  intros HK. unfold nodeSizeThreshold.
  rewrite decide_True by lia. by rewrite decide_False by lia.
Qed.



Lemma sizes_elem_of (ns : gmap N Node) k n :
  ns !! k = Some n → InuseBytes (cum n) ∈ sizes ns.
Proof.
  intros Hk. unfold sizes. apply list_elem_of_fmap.
  exists (k, n). split; [done|]. by apply elem_of_map_to_list.
Qed.

(** A graph whose size list was sorted and reversed from sizes 160, 150, 10. *)
Lemma NodeSizes_three g0 stacks names :
  sizes (nodes (Analyze g0 stacks names)) ≡ₚ [160; 150; 10] →
  NodeSizes (Analyze g0 stacks names) = [160; 150; 10].
Proof.
  intros Hs. rewrite NodeSizes_Analyze. unfold collect_sizes.
  rewrite (sort_Ints_order _ [160; 150; 10]); [done|].
  by rewrite Hs.
Qed.

(** C8: with a keep count of 1 and nodes of cumulative sizes 160, 150 and
    10, the threshold is 150; the nodes of size 160 and 150 are kept and the
    node of size 10 is not. *)
Theorem keep_one_of_three (g0 : graph) (stacks : list Stack) (names : gmap N string) :
  let g := Analyze g0 stacks names in
  sizes (nodes g) ≡ₚ [160; 150; 10] →
  nodeSizeThreshold g (mkParams 1) = Some 150 ∧
  ∀ k n, nodes g !! k = Some n →
    (keptNodes g 150 !! k = Some n ↔ 150 <= InuseBytes (cum n)) ∧
    (keptNodes g 150 !! k = Some n ↔ InuseBytes (cum n) = 160 ∨ InuseBytes (cum n) = 150) ∧
    (InuseBytes (cum n) = 10 → keptNodes g 150 !! k = None).
Proof.
  intros g Hs. split.
  - apply nodeSizeThreshold_index; [simpl; lia|].
    subst g. by rewrite NodeSizes_three.
  - intros k n Hk.
    pose proof (sizes_elem_of _ _ _ Hk) as Hin. rewrite Hs in Hin.
    rewrite keptNodes_lookup.
    split; [tauto|split].
    + split.
      * intros [_ Hle]. set_solver by lia.
      * intros [Heq|Heq]; (split; [done|lia]).
    + intros H10. apply eq_None_not_Some. intros [n' Hn'].
      apply keptNodes_lookup in Hn' as [Hn' Hle]. simplify_eq. lia.
Qed.

Lemma keep_one_of_three_witness :
  let g := Analyze empty_graph (scenario 1 2 3) ∅ in
  sizes (nodes g) ≡ₚ [160; 150; 10] ∧
  nodeSizeThreshold g (mkParams 1) = Some 150 ∧
  ∀ k n, nodes g !! k = Some n →
    (keptNodes g 150 !! k = Some n ↔ 150 <= InuseBytes (cum n)) ∧
    (keptNodes g 150 !! k = Some n ↔ InuseBytes (cum n) = 160 ∨ InuseBytes (cum n) = 150) ∧
    (InuseBytes (cum n) = 10 → keptNodes g 150 !! k = None).
Proof.
  assert (sizes (nodes (Analyze empty_graph (scenario 1 2 3) ∅)) ≡ₚ [160; 150; 10]) as Hs.
  { vm_compute. solve_Permutation. }
  split; [exact Hs|].
  exact (keep_one_of_three empty_graph (scenario 1 2 3) ∅ Hs).
Defined.

(** ** Inclusive and exclusive cost *)

Lemma cum_at_node g x n : nodes g !! x = Some n → cum_at g x = cum n.
Proof. unfold cum_at. by intros ->. Qed.

Lemma cur_at_node g x n : nodes g !! x = Some n → cur_at g x = cur n.
Proof. unfold cur_at. by intros ->. Qed.

Lemma cum_Analyze f x stacks names :
  get f (cum_at (Analyze empty_graph stacks names) x) =
    GoInt.wrap (cost_of_visits f x stacks).
Proof.
  change (cum_at (Analyze empty_graph stacks names) x)
    with (cum_at (Analyze_stacks names empty_graph stacks) x).
  rewrite cum_at_stacks; [|by rewrite get_zero].
  by rewrite get_zero.
Qed.

Lemma cur_Analyze f x stacks names :
  get f (cur_at (Analyze empty_graph stacks names) x) =
    GoInt.wrap (cost_of_leaves f x stacks).
Proof.
  change (cur_at (Analyze empty_graph stacks names) x)
    with (cur_at (Analyze_stacks names empty_graph stacks) x).
  rewrite cur_at_stacks; [|by rewrite get_zero].
  by rewrite get_zero.
Qed.

Lemma nodes_Analyze x stacks names :
  is_Some (nodes (Analyze empty_graph stacks names) !! x) ↔
    ∃ s, s ∈ stacks ∧ x ∈ Stack_Stack s.
Proof.
  change (nodes (Analyze empty_graph stacks names))
    with (nodes (Analyze_stacks names empty_graph stacks)).
  rewrite nodes_stacks. simpl. rewrite lookup_empty.
  split; [intros [[? [=]]|?]; done|by right].
Qed.

Lemma visits_pos x s : (0 < visits x s)%nat ↔ x ∈ Stack_Stack s.
Proof.
  unfold visits, occurrences. rewrite <- frames_None_elem_of.
  generalize (frames None (Stack_Stack s)). intros l.
  induction l as [|a l IH].
  - simpl. rewrite elem_of_nil. lia.
  - rewrite filter_cons, elem_of_cons. case_decide; simpl; [|rewrite IH]; naive_solver lia.
Qed.

Lemma frames_length l : ∀ last, (length (frames last l) ≤ length l)%nat.
Proof.
  induction l as [|a l IH]; intros last; simpl; [done|].
  case_decide; simpl; [specialize (IH last)|specialize (IH (Some a))]; lia.
Qed.

Lemma visits_le_length x s : (visits x s ≤ length (Stack_Stack s))%nat.
Proof.
  unfold visits, occurrences.
  etrans; [apply length_filter|apply frames_length].
Qed.

Lemma sumZ_le {A} (f g : A → Z) (l : list A) :
  (∀ a, a ∈ l → f a <= g a) → sumZ (f <$> l) <= sumZ (g <$> l).
Proof.
  induction l as [|a l IH]; intros H; [done|].
  rewrite !fmap_cons, !sumZ_cons.
  pose proof (H a ltac:(left)). pose proof (IH (λ b Hb, H b (list_elem_of_further _ _ _ Hb))).
  lia.
Qed.

Lemma sumZ_ext {A} (f g : A → Z) (l : list A) :
  (∀ a, a ∈ l → f a = g a) → sumZ (f <$> l) = sumZ (g <$> l).
Proof.
  intros H. apply Z.le_antisymm; apply sumZ_le; intros a Ha; rewrite (H a Ha); lia.
Qed.

Lemma sumZ_nonneg {A} (f : A → Z) (l : list A) :
  (∀ a, a ∈ l → 0 <= f a) → 0 <= sumZ (f <$> l).
Proof.
  intros H. induction l as [|a l IH]; [done|].
  rewrite fmap_cons, sumZ_cons.
  pose proof (H a ltac:(left)). pose proof (IH (λ b Hb, H b (list_elem_of_further _ _ _ Hb))).
  lia.
Qed.

(** C5, as the specification states it, fails: a stack that returns to a
    node after leaving it charges the node once per visit. *)
Lemma cum_once_per_stack_fails : ¬ cum_once_per_stack [mkStack [1; 2; 1]%N (cost 10)].
Proof.
  intros H.
  specialize (H ∅ 1%N (mkNode 1 EmptyString (cost 10) (cost 20)) FInuseBytes eq_refl).
  vm_compute in H. discriminate H.
Qed.

(** C5, amended: the inclusive cost of a node is the sum, wrapped to an
    int, of every stack's cost times the number of visits of the node in that
    stack (its occurrences that do not directly follow an occurrence of
    itself); when no stack visits the node twice, this is the sum of the
    costs of the stacks that contain it. *)
Theorem cum_counts_visits (stacks : list Stack) (names : gmap N string)
    (x : N) (n : Node) (f : field) :
  nodes (Analyze empty_graph stacks names) !! x = Some n →
  get f (cum n) = GoInt.wrap (cost_of_visits f x stacks) ∧
  ((∀ s, s ∈ stacks → (visits x s ≤ 1)%nat) →
   get f (cum n) = GoInt.wrap (cost_of_stacks_containing f x stacks)).
Proof.
  intros Hn. rewrite <- (cum_at_node _ _ _ Hn), cum_Analyze.
  split; [done|]. intros Hone. f_equal.
  apply sumZ_ext. intros s Hs. unfold contains.
  specialize (Hone s Hs). pose proof (visits_pos x s) as Hpos.
  case_bool_decide as Hin.
  - apply Hpos in Hin. replace (visits x s) with 1%nat by lia. lia.
  - replace (visits x s) with 0%nat; [lia|].
    destruct (visits x s); [done|]. exfalso. apply Hin, Hpos. lia.
Qed.

Lemma cum_counts_visits_witness :
  let stacks := [mkStack [1; 2; 1]%N (cost 10); mkStack [2; 2; 3]%N (cost 7)] in
  let n := mkNode 2 EmptyString (cost 7) (cost 17) in
  nodes (Analyze empty_graph stacks ∅) !! 2%N = Some n ∧
  get FInuseBytes (cum n) = GoInt.wrap (cost_of_visits FInuseBytes 2 stacks) ∧
  ((∀ s, s ∈ stacks → (visits 2 s ≤ 1)%nat) →
   get FInuseBytes (cum n) = GoInt.wrap (cost_of_stacks_containing FInuseBytes 2 stacks)).
Proof.
  intros stacks n.
  assert (nodes (Analyze empty_graph stacks ∅) !! 2%N = Some n) as Hn by reflexivity.
  split; [exact Hn|].
  exact (cum_counts_visits stacks ∅ 2 n FInuseBytes Hn).
Defined.

(** ** Cost conservation *)

Lemma leaf_of_visits x s : leaf_of x s = true → (1 ≤ visits x s)%nat.
Proof.
  unfold leaf_of. intros Hh%bool_decide_eq_true_1.
  apply (visits_pos x s). by apply head_Some_elem_of.
Qed.

Lemma sumZ_add {A} (f g : A → Z) (l : list A) :
  sumZ ((λ a, f a + g a) <$> l) = sumZ (f <$> l) + sumZ (g <$> l).
Proof.
  induction l as [|a l IH]; [done|].
  rewrite !fmap_cons, !sumZ_cons, IH. lia.
Qed.

Lemma sumZ_zero {A} (l : list A) : sumZ ((λ _, 0) <$> l) = 0.
Proof. induction l as [|a l IH]; [done|]. by rewrite fmap_cons, sumZ_cons, IH. Qed.

(** Over distinct addresses, one stack's cost is met at most once: at the
    address of its first frame. *)
Lemma sumZ_leaf (c : Z) (s : Stack) (keys : list N) :
  NoDup keys →
  sumZ ((λ x, if leaf_of x s then c else 0) <$> keys) =
    match head (Stack_Stack s) with
    | Some a => if decide (a ∈ keys) then c else 0
    | None => 0
    end.
Proof.
  unfold leaf_of. induction 1 as [|x keys Hx Hnd IH].
  - simpl. by destruct (head _).
  - rewrite fmap_cons, sumZ_cons, IH.
    destruct (head (Stack_Stack s)) as [a|]; [|by rewrite bool_decide_eq_false_2].
    case_bool_decide as Ha; simplify_eq;
      repeat case_decide; try lia; exfalso; set_solver.
Qed.

Lemma sumZ_leaf_framed (c : Z) (s : Stack) (keys : list N) :
  NoDup keys →
  (∀ a, head (Stack_Stack s) = Some a → a ∈ keys) →
  sumZ ((λ x, if leaf_of x s then c else 0) <$> keys) =
    match Stack_Stack s with [] => 0 | _ :: _ => c end.
Proof.
  intros Hnd Hhead. rewrite sumZ_leaf by done.
  destruct (Stack_Stack s) as [|a l]; simpl in *; [done|].
  rewrite decide_True; [done|]. by apply Hhead.
Qed.

Lemma sumZ_leaves f (stacks : list Stack) (keys : list N) :
  NoDup keys →
  (∀ s a, s ∈ stacks → head (Stack_Stack s) = Some a → a ∈ keys) →
  sumZ ((λ x, cost_of_leaves f x stacks) <$> keys) = total_cost_framed f stacks.
Proof.
  intros Hnd. unfold cost_of_leaves, total_cost_framed.
  induction stacks as [|s stacks IH]; intros Hheads.
  - simpl. apply sumZ_zero.
  - rewrite fmap_cons, sumZ_cons.
    rewrite <- IH by (intros s' a Hs'; apply Hheads; by right).
    rewrite <- (sumZ_leaf_framed _ s keys Hnd) by (intros a; apply Hheads; left).
    rewrite <- sumZ_add.
    apply sumZ_ext. intros x _. by rewrite fmap_cons, sumZ_cons.
Qed.

Section conservation.
Context (stacks : list Stack) (names : gmap N string).
Hypothesis Hnonneg : ∀ s, s ∈ stacks → nonneg (Stack_Stats s).
Hypothesis Hfits : ∀ f, total_cost_by_frame f stacks <= GoInt.max_int.

Lemma cost_of_leaves_le_visits f x :
  0 <= cost_of_leaves f x stacks <= cost_of_visits f x stacks.
Proof.
  unfold cost_of_leaves, cost_of_visits. split.
  - apply sumZ_nonneg. intros s Hs. pose proof (Hnonneg s Hs f). by destruct (leaf_of x s).
  - apply sumZ_le. intros s Hs. pose proof (Hnonneg s Hs f).
    destruct (leaf_of x s) eqn:Hleaf; [apply leaf_of_visits in Hleaf|]; nia.
Qed.

Lemma cost_of_visits_fits f x : cost_of_visits f x stacks <= GoInt.max_int.
Proof.
  etrans; [|apply (Hfits f)]. unfold cost_of_visits, total_cost_by_frame.
  apply sumZ_le. intros s Hs. pose proof (Hnonneg s Hs f).
  pose proof (visits_le_length x s). nia.
Qed.

(** Without overflow the two costs of a node are the plain sums. *)
Lemma cur_exact f x :
  get f (cur_at (Analyze empty_graph stacks names) x) = cost_of_leaves f x stacks.
Proof.
  rewrite cur_Analyze. apply wrap_small.
  pose proof (cost_of_leaves_le_visits f x). pose proof (cost_of_visits_fits f x).
  unfold GoInt.in_range, GoInt.min_int, GoInt.max_int in *. lia.
Qed.

Lemma cum_exact f x :
  get f (cum_at (Analyze empty_graph stacks names) x) = cost_of_visits f x stacks.
Proof.
  rewrite cum_Analyze. apply wrap_small.
  pose proof (cost_of_leaves_le_visits f x). pose proof (cost_of_visits_fits f x).
  unfold GoInt.in_range, GoInt.min_int, GoInt.max_int in *. lia.
Qed.

Lemma total_cur_exact f :
  total_cur f (Analyze empty_graph stacks names) = total_cost_framed f stacks.
Proof.
  unfold total_cur.
  set (g := Analyze empty_graph stacks names).
  rewrite <- (sumZ_leaves f stacks (fst <$> map_to_list (nodes g))).
  - rewrite <- list_fmap_compose. f_equal.
    apply list_fmap_ext. intros i [x n] Hi. simpl.
    apply list_elem_of_lookup_2, elem_of_map_to_list in Hi.
    rewrite <- cur_exact. subst g. by rewrite (cur_at_node _ _ _ Hi).
  - apply NoDup_fst_map_to_list.
  - intros s a Hs Ha.
    destruct (proj2 (nodes_Analyze a stacks names)) as [n Hn].
    { exists s. split; [done|]. by apply head_Some_elem_of. }
    apply list_elem_of_fmap. exists (a, n). split; [done|].
    by apply elem_of_map_to_list.
Qed.

End conservation.

Lemma total_cost_framed_all f (stacks : list Stack) :
  (∀ s, s ∈ stacks → Stack_Stack s ≠ []) →
  total_cost_framed f stacks = total_cost f stacks.
Proof.
  intros Hne. apply sumZ_ext. intros s Hs.
  specialize (Hne s Hs). by destruct (Stack_Stack s).
Qed.

(** C2, as the specification states it, fails: a stack without frames has a
    cost that no node receives. *)
Lemma cost_conservation_fails : ¬ cost_conservation [mkStack [] (cost 5)].
Proof.
  intros H. destruct (H ltac:(intros s ->%list_elem_of_singleton []; simpl; lia) ∅)
    as [_ Ht].
  specialize (Ht FInuseBytes). vm_compute in Ht. discriminate Ht.
Qed.

(** It also fails, with every stack framed, where a sum leaves the range of
    an int: the inclusive cost wraps around below the exclusive one. *)
Lemma cum_below_cur_on_overflow :
  let stacks := [mkStack [1%N] (cost GoInt.max_int); mkStack [2; 1]%N (cost 1)] in
  ∃ n, nodes (Analyze empty_graph stacks ∅) !! 1%N = Some n ∧
       InuseBytes (cum n) < InuseBytes (cur n).
Proof.
  eexists. split; [reflexivity|]. vm_compute. reflexivity.
Qed.

(** C2, amended: for stacks with costs that are not negative and whose
    sums stay in the range of an int, every node's inclusive cost is at
    least its exclusive cost, field by field, and the exclusive costs of all
    nodes sum to the costs of the stacks that have at least one frame: to
    the costs of all stacks when none of them is empty. *)
Theorem cost_conserved (stacks : list Stack) (names : gmap N string) :
  (∀ s, s ∈ stacks → nonneg (Stack_Stats s)) →
  (∀ f, total_cost_by_frame f stacks <= GoInt.max_int) →
  let g := Analyze empty_graph stacks names in
  (∀ x n f, nodes g !! x = Some n → get f (cur n) <= get f (cum n)) ∧
  (∀ f, total_cur f g = total_cost_framed f stacks) ∧
  ((∀ s, s ∈ stacks → Stack_Stack s ≠ []) → ∀ f, total_cur f g = total_cost f stacks).
Proof.
  intros Hnonneg Hfits g. split; [|split].
  - intros x n f Hn.
    rewrite <- (cur_at_node _ _ _ Hn), <- (cum_at_node _ _ _ Hn).
    subst g. rewrite cur_exact, cum_exact by done.
    by apply cost_of_leaves_le_visits.
  - intros f. by apply total_cur_exact.
  - intros Hne f. rewrite <- total_cost_framed_all by done. by apply total_cur_exact.
Qed.

Lemma cost_conserved_witness :
  let stacks := scenario 1 2 3 ++ [mkStack [] (cost 5)] in
  (∀ s, s ∈ stacks → nonneg (Stack_Stats s)) ∧
  (∀ f, total_cost_by_frame f stacks <= GoInt.max_int) ∧
  let g := Analyze empty_graph stacks ∅ in
  (∀ x n f, nodes g !! x = Some n → get f (cur n) <= get f (cum n)) ∧
  (∀ f, total_cur f g = total_cost_framed f stacks) ∧
  ((∀ s, s ∈ stacks → Stack_Stack s ≠ []) → ∀ f, total_cur f g = total_cost f stacks).
Proof.
  intros stacks.
  assert (∀ s, s ∈ stacks → nonneg (Stack_Stats s)) as Hnonneg.
  { intros s Hs f. subst stacks. unfold scenario in Hs. simpl in Hs.
    repeat (apply elem_of_cons in Hs as [->|Hs]; [destruct f; simpl; lia|]).
    by apply elem_of_nil in Hs. }
  assert (∀ f, total_cost_by_frame f stacks <= GoInt.max_int) as Hfits.
  { intros f. destruct f; vm_compute; discriminate. }
  split; [exact Hnonneg|]. split; [exact Hfits|].
  exact (cost_conserved stacks ∅ Hnonneg Hfits).
Defined.

(** ** float32 of an int that is not zero *)
Section float32.

Lemma iter_pos_iter {A} (f : A → A) p x :
  SpecFloat.iter_pos f p x = Nat.iter (Pos.to_nat p) f x.
Proof.
  revert x. induction p as [p IH|p IH|]; intros x; simpl SpecFloat.iter_pos.
  - rewrite !IH, Pos2Nat.inj_xI. simpl. rewrite Nat.add_0_r, Nat.iter_add.
    by rewrite !Nat.iter_swap.
  - rewrite !IH, Pos2Nat.inj_xO. simpl. by rewrite Nat.add_0_r, Nat.iter_add.
  - done.
Qed.

Lemma shr_m_shr_1 r : 0 <= shr_m r → shr_m (shr_1 r) = shr_m r / 2.
Proof.
  destruct r as [m b s]. simpl. intros Hm.
  destruct m as [|[p|p|]|p]; simpl; try done.
  - apply (Z.div_unique_pos _ _ _ 1); lia.
  - apply (Z.div_unique_pos _ _ _ 0); lia.
Qed.

Lemma shr_m_iter (k : nat) r :
  0 <= shr_m r → shr_m (Nat.iter k shr_1 r) = shr_m r / 2 ^ Z.of_nat k.
Proof.
  intros Hm. induction k as [|k IH].
  - simpl. by rewrite Z.div_1_r.
  - rewrite Nat.iter_succ, shr_m_shr_1, IH.
    + rewrite Nat2Z.inj_succ, Z.pow_succ_r by lia.
      rewrite Z.div_div by lia. f_equal. lia.
    + rewrite IH. apply Z.div_pos; lia.
Qed.

Lemma shr_spec r e n :
  0 <= shr_m r →
  shr_m (fst (shr r e n)) = shr_m r / 2 ^ Z.max 0 n ∧ snd (shr r e n) = e + Z.max 0 n.
Proof.
  intros Hm. destruct n as [|p|p]; simpl.
  - rewrite Z.div_1_r. split; [done|lia].
  - rewrite iter_pos_iter, shr_m_iter by done.
    rewrite positive_nat_Z. split; [done|lia].
  - rewrite Z.div_1_r. split; [done|lia].
Qed.

Lemma digits2_pos_lower p : 2 ^ (Z.pos (digits2_pos p) - 1) <= Z.pos p.
Proof.
  induction p as [p IH|p IH|]; simpl digits2_pos; [| |done].
  - rewrite Pos2Z.inj_succ. replace (Z.succ (Z.pos (digits2_pos p)) - 1)
      with (Z.succ (Z.pos (digits2_pos p) - 1)) by lia.
    rewrite Z.pow_succ_r by lia. lia.
  - rewrite Pos2Z.inj_succ. replace (Z.succ (Z.pos (digits2_pos p)) - 1)
      with (Z.succ (Z.pos (digits2_pos p) - 1)) by lia.
    rewrite Z.pow_succ_r by lia. lia.
Qed.

(** Shifting a positive mantissa to its format exponent leaves it positive,
    as long as the exponent is far from the subnormal range. *)
Lemma shr_fexp_pos m e l :
  0 < m → -100 <= e →
  0 < shr_m (fst (shr_fexp f32_prec f32_emax m e l)) ∧
  -100 <= snd (shr_fexp f32_prec f32_emax m e l).
Proof.
  intros Hm He. unfold shr_fexp.
  destruct m as [|p|p]; try lia. simpl Zdigits2.
  assert (shr_m (shr_record_of_loc (Z.pos p) l) = Z.pos p) as Hrec
    by (by destruct l as [|[]]).
  set (n := fexp f32_prec f32_emax (Z.pos (digits2_pos p) + e) - e).
  destruct (shr_spec (shr_record_of_loc (Z.pos p) l) e n) as [Hs He']; [lia|].
  rewrite Hs, He', Hrec. split; [|lia].
  assert (n = Z.pos (digits2_pos p) - 24) as ->.
  { subst n. unfold fexp, emin, f32_prec, f32_emax. lia. }
  pose proof (digits2_pos_lower p) as Hlow.
  destruct (Z.max_spec 0 (Z.pos (digits2_pos p) - 24)) as [[Hlt ->]|[Hge ->]].
  - apply Z.div_str_pos. split; [apply Z.pow_pos_nonneg; lia|].
    etrans; [|exact Hlow]. apply Z.pow_le_mono_r; lia.
  - simpl. rewrite Z.div_1_r. lia.
Qed.

Lemma round_nearest_even_pos m l : 0 < m → 0 < round_nearest_even m l.
Proof. intros Hm. destruct l as [|[]]; simpl; try lia. destruct (Z.even m); lia. Qed.

Lemma binary_round_aux_sign sx m e l :
  0 < m → -100 <= e →
  (∃ m' e', binary_round_aux f32_prec f32_emax sx m e l = S754_finite sx m' e') ∨
  binary_round_aux f32_prec f32_emax sx m e l = S754_infinity sx.
Proof.
  intros Hm He. unfold binary_round_aux.
  destruct (shr_fexp_pos m e l Hm He) as [Hm1 He1].
  destruct (shr_fexp f32_prec f32_emax m e l) as [mrs' e'] eqn:H1. simpl in Hm1, He1.
  pose proof (round_nearest_even_pos (shr_m mrs') (loc_of_shr_record mrs') Hm1) as Hm2.
  destruct (shr_fexp_pos _ e' loc_Exact Hm2 He1) as [Hm3 He3].
  destruct (shr_fexp f32_prec f32_emax _ e' loc_Exact) as [mrs'' e''] eqn:H2.
  simpl in Hm3. destruct (shr_m mrs'') as [|p|p]; try lia.
  destruct (e'' <=? f32_emax - f32_prec); [left; eauto|by right].
Qed.

(** An int above zero converts to a positive float32 or to [+Inf], an int
    below zero to a negative one or to [-Inf]: never to zero or NaN. *)
Lemma float32_of_int_sign (i : Z) :
  i ≠ 0 →
  (∃ m e, float32_of_int i = S754_finite (bool_decide (i < 0)) m e) ∨
  float32_of_int i = S754_infinity (bool_decide (i < 0)).
Proof.
  intros Hi. unfold float32_of_int, binary_normalize.
  assert (∀ sx p, (∃ m e, binary_round f32_prec f32_emax sx p 0 = S754_finite sx m e) ∨
                  binary_round f32_prec f32_emax sx p 0 = S754_infinity sx) as Hround.
  { intros sx p. unfold binary_round.
    destruct (shl_align p 0 _) as [mz ez] eqn:Hsh.
    apply binary_round_aux_sign; [lia|].
    unfold shl_align in Hsh.
    destruct (fexp f32_prec f32_emax (Z.pos (digits2_pos p) + 0) - 0) as [|d|d] eqn:Hd;
      simplify_eq; try lia.
    unfold fexp, emin, f32_prec, f32_emax. lia. }
  destruct i as [|p|p]; [done|..].
  - rewrite bool_decide_eq_false_2 by lia. apply Hround.
  - rewrite bool_decide_eq_true_2 by lia. apply Hround.
Qed.

End float32.

(** ** The size label *)

Lemma SizeLabel_SizeLabel_with s n :
  SizeLabel s n = SizeLabel_with n (fmt_f1 (SizeLabel_percent s n)).
Proof. done. Qed.

(** With a total of 0 the quotient is not a number: NaN for 0/0, an
    infinity with the sign of [cum] otherwise; times 100 it stays so. *)
Lemma SizeLabel_percent_zero_total s n :
  Header_InuseBytes (state_Profile s) = 0 →
  SizeLabel_percent s n =
    if decide (InuseBytes (cum n) = 0) then S754_nan
    else S754_infinity (bool_decide (InuseBytes (cum n) < 0)).
Proof.
  intros Htotal. unfold SizeLabel_percent. rewrite Htotal.
  change (float32_of_int 0) with (S754_zero false).
  change (float32_of_int 100) with (S754_finite false 13107200 (-17)).
  case_decide as Hcum.
  - rewrite Hcum. done.
  - unfold float32_div, float32_mul.
    destruct (float32_of_int_sign _ Hcum) as [(m & e & ->)| ->]; simpl;
      by rewrite !xorb_false_r.
Qed.

(** C4, as the specification states it, fails: nothing guards the division,
    and a node of an empty profile is labelled with NaN, not with 0.0. *)
Lemma SizeLabel_guarded_fails :
  ¬ SizeLabel_guarded empty_state (mkNode 1 EmptyString (cost 0) (cost 0)).
Proof. intros H. specialize (H eq_refl). vm_compute in H. discriminate H. Qed.

Example SizeLabel_empty_profile :
  SizeLabel empty_state (mkNode 1 EmptyString (cost 0) (cost 0)) = "0k of 0k (NaN% of total)".
Proof. reflexivity. Qed.

Example SizeLabel_scenario :
  SizeLabel (mkState (mkProfile (160 * 1024) (λ _, None) []) (mkDemangler Some)
                     empty_graph (mkParams 100))
            (mkNode 2 EmptyString (cost 2048) (cost (150 * 1024)))
    = "2k of 150k (93.8% of total)".
Proof. reflexivity. Qed.

(** C4, amended: [SizeLabel] is total, so it never fails; when the
    profile-wide total is 0 the division is a float32 division by zero, and
    the percentage is printed as NaN when the node's cumulative bytes are 0,
    as +Inf when they are positive and as -Inf when they are negative. *)
Theorem SizeLabel_zero_total (s : state) (n : Node) :
  Header_InuseBytes (state_Profile s) = 0 →
  SizeLabel s n =
    SizeLabel_with n (if decide (InuseBytes (cum n) = 0) then "NaN"
                      else if decide (InuseBytes (cum n) < 0) then "-Inf" else "+Inf").
Proof.
  intros Htotal.
  rewrite SizeLabel_SizeLabel_with, SizeLabel_percent_zero_total by done.
  repeat case_decide; done.
Qed.

Lemma SizeLabel_zero_total_witness :
  let n := mkNode 7 EmptyString (cost 1024) (cost 4096) in
  Header_InuseBytes (state_Profile empty_state) = 0 ∧
  SizeLabel empty_state n =
    SizeLabel_with n (if decide (InuseBytes (cum n) = 0) then "NaN"
                      else if decide (InuseBytes (cum n) < 0) then "-Inf" else "+Inf").
Proof.
  intros n. split; [reflexivity|].
  apply (SizeLabel_zero_total empty_state n). reflexivity.
Defined.

(** ** The canonicalizer *)
Section cleanup.
Context (syms : Symbols).

Lemma first_seen_app nm l1 l2 :
  first_seen syms nm (l1 ++ l2) =
    match first_seen syms nm l1 with
    | Some r => Some r
    | None => first_seen syms nm l2
    end.
Proof.
  unfold first_seen. rewrite filter_app.
  by destruct (filter _ l1).
Qed.

Lemma first_seen_singleton nm a :
  first_seen syms nm [a] = if decide (symbol_of syms a = Some nm) then Some a else None.
Proof. unfold first_seen. rewrite filter_cons. by case_decide. Qed.

Lemma first_seen_Some nm l r :
  first_seen syms nm l = Some r → r ∈ l ∧ symbol_of syms r = Some nm.
Proof.
  unfold first_seen. intros Hh%head_Some_elem_of.
  by apply list_elem_of_filter in Hh as [? ?].
Qed.

Lemma first_seen_None nm l a :
  first_seen syms nm l = None → a ∈ l → symbol_of syms a ≠ Some nm.
Proof.
  unfold first_seen. intros Hh Ha Hs.
  assert (a ∈ filter (λ a, symbol_of syms a = Some nm) l) as Hin
    by (by apply list_elem_of_filter).
  destruct (filter _ l); [by apply elem_of_nil in Hin|done].
Qed.

Lemma first_seen_is_Some nm l a :
  a ∈ l → symbol_of syms a = Some nm → is_Some (first_seen syms nm l).
Proof.
  intros Ha Hs. destruct (first_seen syms nm l) eqn:Hf; [by eexists|].
  by destruct (first_seen_None nm l a Hf Ha).
Qed.

(** Once an address has been met its canonical address is settled. *)
Lemma canonical_app l1 l2 a : a ∈ l1 → canonical syms (l1 ++ l2) a = canonical syms l1 a.
Proof.
  intros Ha. unfold canonical. destruct (symbol_of syms a) as [nm|] eqn:Hs; [|done].
  rewrite first_seen_app.
  by destruct (first_seen_is_Some nm l1 a Ha Hs) as [r ->].
Qed.

Lemma maps_at_nil : maps_at syms [] ∅ ∅.
Proof.
  split; [done|]. intros a. unfold name_entry. rewrite lookup_empty.
  by destruct (symbol_of syms a).
Qed.

Lemma first_seen_snoc_other nm seen a :
  symbol_of syms a ≠ Some nm → first_seen syms nm (seen ++ [a]) = first_seen syms nm seen.
Proof.
  intros Hs. rewrite first_seen_app, first_seen_singleton, decide_False by done.
  by destruct (first_seen syms nm seen).
Qed.

Lemma first_seen_snoc_found nm seen a r :
  first_seen syms nm seen = Some r → first_seen syms nm (seen ++ [a]) = Some r.
Proof. intros Hr. by rewrite first_seen_app, Hr. Qed.

Lemma first_seen_snoc_new nm seen a :
  first_seen syms nm seen = None → symbol_of syms a = Some nm →
  first_seen syms nm (seen ++ [a]) = Some a.
Proof. intros Hr Hs. by rewrite first_seen_app, Hr, first_seen_singleton, decide_True. Qed.

Lemma name_entry_ext l1 l2 x :
  (∀ nm, first_seen syms nm l1 = first_seen syms nm l2) →
  name_entry syms l1 x = name_entry syms l2 x.
Proof. intros H. unfold name_entry. destruct (symbol_of syms x); [by rewrite H|done]. Qed.

Lemma name_entry_first_seen nm seen r :
  first_seen syms nm seen = Some r → name_entry syms seen r = Some nm.
Proof.
  intros Hr. unfold name_entry.
  destruct (first_seen_Some _ _ _ Hr) as [_ ->]. by rewrite decide_True.
Qed.

(** The loop body with its pattern matching spelled out. *)
Lemma CleanupStacks_addr_unfold st a :
  CleanupStacks_addr syms st a =
    let c := match Lookup syms a with
             | Some sym => default a (addrs st !! Symbol_name sym)
             | None => a
             end in
    mkCleanup
      (match Lookup syms a with
       | Some sym => match addrs st !! Symbol_name sym with
                     | Some _ => addrs st
                     | None => <[Symbol_name sym := a]> (addrs st)
                     end
       | None => addrs st
       end)
      (match Lookup syms a with
       | Some sym => <[c := Symbol_name sym]> (names st)
       | None => names st
       end)
      c
      (newstack st ++ if decide (c = last st) then [] else [c]).
Proof.
  unfold CleanupStacks_addr.
  destruct (Lookup syms a) as [sym|]; [destruct (addrs st !! Symbol_name sym)|];
    simpl; case_decide; subst; by rewrite ?app_nil_r.
Qed.

(** One iteration: the maps follow the addresses met, and the address
    compared with [last] is the canonical one. *)
Lemma CleanupStacks_addr_spec seen st a :
  maps_at syms seen (addrs st) (names st) →
  let c := canonical syms (seen ++ [a]) a in
  let st' := CleanupStacks_addr syms st a in
  maps_at syms (seen ++ [a]) (addrs st') (names st') ∧
  last st' = c ∧
  newstack st' = newstack st ++ (if decide (c = last st) then [] else [c]).
Proof.
  intros [Haddrs Hnames] c st'. subst c st'.
  rewrite CleanupStacks_addr_unfold. unfold canonical, symbol_of.
  destruct (Lookup syms a) as [sym|] eqn:Hsym; simpl.
  - set (nm := Symbol_name sym).
    assert (symbol_of syms a = Some nm) as Hs by (unfold symbol_of; by rewrite Hsym).
    destruct (addrs st !! nm) as [r|] eqn:Hr; rewrite Haddrs in Hr; simpl.
    + rewrite (first_seen_snoc_found _ _ _ _ Hr). simpl. split; [|done].
      assert (∀ nm', first_seen syms nm' (seen ++ [a]) = first_seen syms nm' seen) as Hsame.
      { intros nm'. destruct (decide (nm' = nm)) as [->|Hne].
        - by rewrite (first_seen_snoc_found _ _ _ _ Hr).
        - apply first_seen_snoc_other. congruence. }
      split.
      * intros nm'. by rewrite Hsame.
      * intros x. rewrite (name_entry_ext _ seen) by done.
        rewrite insert_id; [done|]. rewrite Hnames. by apply name_entry_first_seen.
    + rewrite (first_seen_snoc_new _ _ _ Hr Hs). simpl. split; [|done].
      split.
      * intros nm'. destruct (decide (nm' = nm)) as [->|Hne].
        -- by rewrite lookup_insert_eq, (first_seen_snoc_new _ _ _ Hr Hs).
        -- rewrite lookup_insert_ne by done. rewrite Haddrs.
           symmetry. apply first_seen_snoc_other. congruence.
      * intros x. destruct (decide (x = a)) as [->|Hne].
        -- rewrite lookup_insert_eq. symmetry. apply name_entry_first_seen.
           by apply first_seen_snoc_new.
        -- rewrite lookup_insert_ne by done. rewrite Hnames.
           unfold name_entry. destruct (symbol_of syms x) as [nm'|]; [|done].
           destruct (decide (nm' = nm)) as [->|Hnm].
           ++ rewrite (first_seen_snoc_new _ _ _ Hr Hs), Hr.
              rewrite !decide_False; [done|congruence|congruence].
           ++ rewrite first_seen_snoc_other; [done|congruence].
  - split; [|done].
    assert (symbol_of syms a = None) as Hs by (unfold symbol_of; by rewrite Hsym).
    assert (∀ nm', first_seen syms nm' (seen ++ [a]) = first_seen syms nm' seen) as Hsame.
    { intros nm'. apply first_seen_snoc_other. congruence. }
    split.
    + intros nm'. by rewrite Hsame.
    + intros x. by rewrite (name_entry_ext _ seen).
Qed.

Lemma collapse_cons last c l :
  collapse last (c :: l) = if decide (c = last) then collapse last l else c :: collapse c l.
Proof. unfold collapse. simpl. repeat case_decide; simplify_eq; done. Qed.

(** The inner loop: [newstack] grows by the collapsed canonical addresses. *)
Lemma CleanupStacks_inner l : ∀ seen st,
  maps_at syms seen (addrs st) (names st) →
  let st' := foldl (CleanupStacks_addr syms) st l in
  maps_at syms (seen ++ l) (addrs st') (names st') ∧
  newstack st' = newstack st ++ collapse (last st) (canonical syms (seen ++ l) <$> l).
Proof.
  induction l as [|a l IH]; intros seen st Hmaps; simpl.
  - by rewrite !app_nil_r.
  - destruct (CleanupStacks_addr_spec seen st a Hmaps) as (Hmaps1 & Hlast1 & Hnew1).
    destruct (IH (seen ++ [a]) _ Hmaps1) as [Hmaps' Hnew'].
    rewrite <- app_assoc in Hmaps', Hnew'. simpl in Hmaps', Hnew'.
    split; [done|].
    assert (canonical syms (seen ++ a :: l) a = canonical syms (seen ++ [a]) a) as Hca.
    { rewrite (cons_middle a seen l), app_assoc.
      apply canonical_app, elem_of_app. right. left. }
    rewrite Hnew', Hnew1, Hlast1, collapse_cons, Hca.
    case_decide as Hc.
    + by rewrite app_nil_r, Hc.
    + by rewrite <- app_assoc.
Qed.

Lemma all_addrs_cons s stacks : all_addrs (s :: stacks) = Stack_Stack s ++ all_addrs stacks.
Proof. done. Qed.

Lemma all_addrs_elem_of a stacks :
  a ∈ all_addrs stacks ↔ ∃ s, s ∈ stacks ∧ a ∈ Stack_Stack s.
Proof.
  unfold all_addrs. rewrite list_elem_of_join. split.
  - intros (l & Ha & (s & -> & Hs)%list_elem_of_fmap). eauto.
  - intros (s & Hs & Ha). exists (Stack_Stack s). split; [done|].
    apply list_elem_of_fmap. eauto.
Qed.

Lemma cleaned_app seen more s :
  cleaned syms ((seen ++ Stack_Stack s) ++ more) s = cleaned syms (seen ++ Stack_Stack s) s.
Proof.
  unfold cleaned. do 2 f_equal. apply list_fmap_ext. intros i a Ha.
  apply canonical_app, elem_of_app. right. by apply list_elem_of_lookup_2 in Ha.
Qed.

(** The outer loop. *)
Lemma CleanupStacks_outer stacks : ∀ seen addrs0 names0 done,
  maps_at syms seen addrs0 names0 →
  let r := foldl (CleanupStacks_stack syms) (addrs0, names0, done) stacks in
  maps_at syms (seen ++ all_addrs stacks) (fst (fst r)) (snd (fst r)) ∧
  snd r = done ++ (cleaned syms (seen ++ all_addrs stacks) <$> stacks).
Proof.
  induction stacks as [|s stacks IH]; intros seen addrs0 names0 done Hmaps.
  - simpl. by rewrite !app_nil_r.
  - simpl foldl.
    destruct (CleanupStacks_inner (Stack_Stack s) seen (mkCleanup addrs0 names0 0%N []) Hmaps)
      as [Hmaps1 Hnew1].
    simpl in Hnew1.
    destruct (IH _ _ _ (done ++ [mkStack (newstack
       (foldl (CleanupStacks_addr syms) (mkCleanup addrs0 names0 0%N []) (Stack_Stack s)))
       (Stack_Stats s)]) Hmaps1) as [Hmaps' Hout'].
    rewrite all_addrs_cons, app_assoc. split; [done|].
    rewrite Hout', Hnew1, <- app_assoc. f_equal. rewrite fmap_cons. f_equal.
    by rewrite cleaned_app.
Qed.

(** What [CleanupStacks] computes: every stack is rewritten to canonical
    addresses and collapsed, and [names] names every first-seen address. *)
Lemma CleanupStacks_spec stacks :
  fst (CleanupStacks stacks syms) = cleaned syms (all_addrs stacks) <$> stacks ∧
  ∀ a, snd (CleanupStacks stacks syms) !! a = name_entry syms (all_addrs stacks) a.
Proof.
  unfold CleanupStacks.
  destruct (CleanupStacks_outer stacks [] ∅ ∅ [] maps_at_nil) as [[_ Hnames] Hout].
  destruct (foldl _ _ stacks) as [[addrs' names'] out]. simpl in *. by subst.
Qed.

(** *** Canonical addresses *)

Lemma canonical_symbol all a : symbol_of syms (canonical syms all a) = symbol_of syms a.
Proof.
  unfold canonical. destruct (symbol_of syms a) as [nm|] eqn:Hs; [|done].
  destruct (first_seen syms nm all) as [r|] eqn:Hr; simpl; [|done].
  by destruct (first_seen_Some _ _ _ Hr).
Qed.

Lemma canonical_first_seen all a nm :
  symbol_of syms a = Some nm → a ∈ all →
  first_seen syms nm all = Some (canonical syms all a).
Proof.
  intros Hs Ha. unfold canonical. rewrite Hs.
  by destruct (first_seen_is_Some nm all a Ha Hs) as [r ->].
Qed.

Lemma canonical_unresolved all a : symbol_of syms a = None → canonical syms all a = a.
Proof. intros Hs. unfold canonical. by rewrite Hs. Qed.

Lemma canonical_of_first_seen all nm r :
  first_seen syms nm all = Some r → canonical syms all r = r.
Proof.
  intros Hr. unfold canonical.
  destruct (first_seen_Some _ _ _ Hr) as [_ ->]. by rewrite Hr.
Qed.

Lemma collapse_elem_of last x l : x ∈ collapse last l → x ∈ l.
Proof. apply frames_elem_of. Qed.

Lemma elem_of_collapse last x l : x ∈ l → x ≠ last → x ∈ collapse last l.
Proof.
  intros Hx Hne. destruct (elem_of_frames x l (Some last) Hx) as [[= ->]|?]; done.
Qed.

Lemma frames_idemp l : ∀ last, frames last (frames last l) = frames last l.
Proof.
  induction l as [|a l IH]; intros last; simpl; [done|].
  case_decide as Hl; [by apply IH|].
  simpl. rewrite decide_False by done. by rewrite IH.
Qed.

Lemma collapse_idemp last l : collapse last (collapse last l) = collapse last l.
Proof. apply frames_idemp. Qed.

(** A collapsed list never starts with the address it was collapsed
    against. *)
Lemma collapse_head last l : head (collapse last l) ≠ Some last.
Proof.
  unfold collapse. induction l as [|a l IH]; simpl; [done|].
  case_decide as Hl; [done|]. simpl. congruence.
Qed.

(** Every address of a cleaned stack is the canonical address of an address
    of the stack it came from. *)
Lemma cleaned_elem_of all stacks b :
  b ∈ all_addrs (cleaned syms all <$> stacks) →
  ∃ a, a ∈ all_addrs stacks ∧ b = canonical syms all a.
Proof.
  intros (s' & (s & -> & Hs)%list_elem_of_fmap & Hb)%all_addrs_elem_of.
  simpl in Hb. apply collapse_elem_of, list_elem_of_fmap in Hb as (a & -> & Ha).
  exists a. split; [|done]. apply all_addrs_elem_of. eauto.
Qed.

(** Conversely every canonical address other than 0 is still there. *)
Lemma elem_of_cleaned all stacks a :
  a ∈ all_addrs stacks → canonical syms all a ≠ 0%N →
  canonical syms all a ∈ all_addrs (cleaned syms all <$> stacks).
Proof.
  intros (s & Hs & Ha)%all_addrs_elem_of Hne.
  apply all_addrs_elem_of. exists (cleaned syms all s).
  split; [apply list_elem_of_fmap; eauto|]. simpl.
  apply elem_of_collapse; [|done]. apply list_elem_of_fmap. eauto.
Qed.

(** *** A second pass *)

(** In the cleaned stacks an address that resolves is the first address
    seen of its name: in the first pass and so in a second one. *)
Lemma cleaned_first_seen stacks b nm :
  let all := all_addrs stacks in
  let all' := all_addrs (cleaned syms all <$> stacks) in
  b ∈ all' → symbol_of syms b = Some nm →
  first_seen syms nm all = Some b ∧ first_seen syms nm all' = Some b.
Proof.
  intros all all' Hb Hs.
  assert (∀ x, x ∈ all' → symbol_of syms x = Some nm → first_seen syms nm all = Some x)
    as Hfirst.
  { intros x (a & Ha & ->)%cleaned_elem_of Hx.
    rewrite canonical_symbol in Hx. by apply canonical_first_seen. }
  split; [by apply Hfirst|].
  destruct (first_seen_is_Some nm all' b Hb Hs) as [r Hr].
  destruct (first_seen_Some _ _ _ Hr) as [Hr' Hrs].
  pose proof (Hfirst r Hr' Hrs). pose proof (Hfirst b Hb Hs). congruence.
Qed.

Lemma cleaned_canonical stacks b :
  let all := all_addrs stacks in
  let all' := all_addrs (cleaned syms all <$> stacks) in
  b ∈ all' → canonical syms all' b = b.
Proof.
  intros all all' Hb. destruct (symbol_of syms b) as [nm|] eqn:Hs.
  - destruct (cleaned_first_seen stacks b nm Hb Hs) as [_ Hr].
    by apply (canonical_of_first_seen _ nm).
  - by apply canonical_unresolved.
Qed.

(** A second pass changes no stack. *)
Lemma cleaned_twice stacks :
  let all := all_addrs stacks in
  let out := cleaned syms all <$> stacks in
  cleaned syms (all_addrs out) <$> out = out.
Proof.
  intros all out. rewrite <- (list_fmap_id out) at 3.
  apply list_fmap_ext. intros i s' Hi.
  apply list_elem_of_lookup_2 in Hi as Hs'.
  destruct s' as [l stats]. unfold cleaned. simpl. f_equal.
  assert (canonical syms (all_addrs out) <$> l = l) as ->.
  { rewrite <- (list_fmap_id l) at 2. apply list_fmap_ext. intros j b Hj.
    apply cleaned_canonical, all_addrs_elem_of.
    exists (mkStack l stats). split; [done|]. by apply list_elem_of_lookup_2 in Hj. }
  apply list_elem_of_fmap in Hs' as (s & Heq & _).
  injection Heq as -> _. apply collapse_idemp.
Qed.

(** A second pass keeps every entry of [names] whose address is still in a
    stack; when address 0 does not resolve, that is every entry. *)
Lemma name_entry_twice stacks a :
  let all := all_addrs stacks in
  let all' := all_addrs (cleaned syms all <$> stacks) in
  symbol_of syms 0%N = None →
  name_entry syms all' a = name_entry syms all a.
Proof.
  intros all all' Hzero. unfold name_entry.
  destruct (symbol_of syms a) as [nm|] eqn:Hs; [|done].
  destruct (decide (first_seen syms nm all = Some a)) as [Hr|Hr].
  - rewrite decide_True; [done|].
    destruct (first_seen_Some _ _ _ Hr) as [Ha _].
    assert (a ∈ all') as Ha'.
    { rewrite <- (canonical_of_first_seen all nm a Hr).
      apply elem_of_cleaned; [done|].
      rewrite (canonical_of_first_seen all nm a Hr). intros ->. congruence. }
    by destruct (cleaned_first_seen stacks a nm Ha' Hs).
  - rewrite decide_False; [done|]. intros Hr'. apply Hr.
    destruct (first_seen_Some _ _ _ Hr') as [Ha' _].
    by destruct (cleaned_first_seen stacks a nm Ha' Hs).
Qed.

(** Idempotence: a second run leaves every stack as the first run made it,
    and returns the same map when address 0 does not resolve. *)
Theorem CleanupStacks_idempotent stacks :
  let first := CleanupStacks stacks syms in
  let second := CleanupStacks (fst first) syms in
  fst second = fst first ∧
  (symbol_of syms 0%N = None → snd second = snd first).
Proof.
  intros first second.
  destruct (CleanupStacks_spec stacks) as [Hout Hnames].
  fold first in Hout, Hnames.
  destruct (CleanupStacks_spec (fst first)) as [Hout' Hnames'].
  fold second in Hout', Hnames'.
  rewrite Hout', Hout. split; [apply cleaned_twice|].
  intros Hzero. apply map_eq. intros a.
  rewrite Hnames', Hnames, Hout. by apply name_entry_twice.
Qed.

(** *** The graph of the cleaned stacks *)

Lemma node_fields_visit names stats g last a :
  node_fields_ok names g → node_fields_ok names (Analyze_visit names stats g last a).
Proof.
  intros Hok x n. unfold Analyze_visit.
  destruct (nodes g !! a) as [n0|] eqn:Ha; destruct last as [l|]; simpl;
    (destruct (decide (x = a)) as [->|];
     [rewrite lookup_insert_eq; intros [= <-]; simpl; try done; by apply Hok
     |rewrite lookup_insert_ne by done; by apply Hok]).
Qed.

Lemma node_fields_frames names stats l : ∀ g last,
  node_fields_ok names g →
  node_fields_ok names (fst (foldl (Analyze_frame names stats) (g, last) l)).
Proof.
  induction l as [|a l IH]; intros g last Hok; simpl; [done|].
  case_decide; [by apply IH|]. by apply IH, node_fields_visit.
Qed.

Lemma node_fields_Analyze names stacks :
  node_fields_ok names (Analyze empty_graph stacks names).
Proof.
  change (node_fields_ok names (Analyze_stacks names empty_graph stacks)).
  assert (node_fields_ok names empty_graph) as Hok by (by intros x n Hn).
  revert Hok. generalize empty_graph.
  induction stacks as [|s stacks IH]; intros g Hok; [done|].
  apply IH, node_fields_frames, Hok.
Qed.

(** Symbol collapsing: when A and B carry one name and one of them occurs
    in a stack, both are rewritten to the first address R seen with that
    name; no other address of that name is left in a stack or in the graph;
    and when R is not 0 the graph has the node R, named after the symbol. *)
Theorem symbol_collapsing stacks (A B : N) nm :
  symbol_of syms A = Some nm → symbol_of syms B = Some nm → A ≠ B →
  A ∈ all_addrs stacks ∨ B ∈ all_addrs stacks →
  let all := all_addrs stacks in
  let r := CleanupStacks stacks syms in
  let g := Analyze empty_graph (fst r) (snd r) in
  ∃ R, first_seen syms nm all = Some R ∧
       canonical syms all A = R ∧ canonical syms all B = R ∧
       fst r = cleaned syms all <$> stacks ∧
       snd r !! R = Some nm ∧
       (∀ x, x ∈ all_addrs (fst r) → symbol_of syms x = Some nm → x = R) ∧
       (∀ x, is_Some (nodes g !! x) → symbol_of syms x = Some nm → x = R) ∧
       (R ≠ 0%N → ∃ n, nodes g !! R = Some n ∧ addr n = R ∧ name n = nm).
Proof.
  intros HA HB Hne Hocc all r g. subst all.
  destruct (CleanupStacks_spec stacks) as [Hout Hnames]. fold r in Hout, Hnames.
  assert (∃ a, a ∈ all_addrs stacks ∧ symbol_of syms a = Some nm) as (a & Ha & Has)
    by (destruct Hocc; eauto).
  destruct (first_seen_is_Some nm _ a Ha Has) as [R HR].
  assert (∀ x, x ∈ all_addrs (fst r) → symbol_of syms x = Some nm → x = R) as Hleft.
  { intros x Hx Hxs. rewrite Hout in Hx.
    destruct (cleaned_first_seen stacks x nm Hx Hxs) as [Hx' _].
    congruence. }
  assert (snd r !! R = Some nm) as HnR.
  { rewrite Hnames. by apply name_entry_first_seen. }
  exists R. repeat split; try done.
  - unfold canonical. by rewrite HA, HR.
  - unfold canonical. by rewrite HB, HR.
  - intros x Hx Hxs. apply Hleft; [|done].
    apply nodes_Analyze in Hx as (s & Hs & Hx). apply all_addrs_elem_of. eauto.
  - intros HR0.
    assert (R ∈ all_addrs (fst r)) as HRin.
    { rewrite Hout. replace R with (canonical syms (all_addrs stacks) a).
      - apply elem_of_cleaned; [done|]. unfold canonical. by rewrite Has, HR.
      - unfold canonical. by rewrite Has, HR. }
    apply all_addrs_elem_of in HRin.
    destruct (proj2 (nodes_Analyze R (fst r) (snd r)) HRin) as [n Hn].
    exists n. split; [done|].
    destruct (node_fields_Analyze (snd r) (fst r) R n Hn) as [Haddr Hname].
    split; [done|]. rewrite Hname. unfold name_of. by rewrite HnR.
Qed.

(** *** The first frame of a stack *)

(** C10: [last] starts at 0, so a stack whose first address is 0 after the
    canonical rewriting loses that frame, although nothing precedes it; a
    stack whose first address is then not 0 keeps it as its first frame. *)
Theorem leading_zero_dropped stacks (i : nat) (s : Stack) (a : N) (rest : list N) :
  stacks !! i = Some s →
  Stack_Stack s = a :: rest →
  let all := all_addrs stacks in
  let c := canonical syms all a in
  ∃ s', fst (CleanupStacks stacks syms) !! i = Some s' ∧
        Stack_Stats s' = Stack_Stats s ∧
        (c = 0%N → Stack_Stack s' = collapse 0 (canonical syms all <$> rest) ∧
                   head (Stack_Stack s') ≠ Some c) ∧
        (c ≠ 0%N → Stack_Stack s' = c :: collapse c (canonical syms all <$> rest) ∧
                   head (Stack_Stack s') = Some c).
Proof.
  intros Hi Hs all c.
  destruct (CleanupStacks_spec stacks) as [Hout _].
  exists (cleaned syms all s). split; [|split; [done|]].
  - rewrite Hout, list_lookup_fmap, Hi. done.
  - unfold cleaned. simpl. rewrite Hs, fmap_cons, collapse_cons. fold c. split.
    + intros Hc. rewrite decide_True by done. split; [done|].
      rewrite Hc. apply collapse_head.
    + intros Hc. by rewrite decide_False by done.
Qed.

End cleanup.

Lemma leading_zero_dropped_witness :
  let stacks := [mkStack [3; 0]%N (cost 4); mkStack [5; 0; 7]%N (cost 10)] in
  let s := mkStack [5; 0; 7]%N (cost 10) in
  stacks !! 1%nat = Some s ∧
  Stack_Stack s = 5%N :: [0; 7]%N ∧
  let all := all_addrs stacks in
  let c := canonical syms_zero all 5 in
  ∃ s', fst (CleanupStacks stacks syms_zero) !! 1%nat = Some s' ∧
        Stack_Stats s' = Stack_Stats s ∧
        (c = 0%N → Stack_Stack s' = collapse 0 (canonical syms_zero all <$> [0; 7]%N) ∧
                   head (Stack_Stack s') ≠ Some c) ∧
        (c ≠ 0%N → Stack_Stack s' = c :: collapse c (canonical syms_zero all <$> [0; 7]%N) ∧
                   head (Stack_Stack s') = Some c).
Proof.
  intros stacks s. split; [reflexivity|]. split; [reflexivity|].
  apply (leading_zero_dropped syms_zero stacks 1 s 5 [0; 7]%N); reflexivity.
Defined.

(** The stack [5, 0, 7], whose first address is rewritten to 0, is left as
    [7]; the stack [3, 0] keeps its first frame. *)
Example leading_zero_example :
  Stack_Stack <$> fst (CleanupStacks [mkStack [3; 0]%N (cost 4); mkStack [5; 0; 7]%N (cost 10)]
                                     syms_zero)
    = [[3; 0]; [7]]%N.
Proof. reflexivity. Qed.

(** A resolver that names the addresses 4 and 5 alike collapses them to 5,
    the one seen first, in the stacks and in the graph. *)
Example symbol_collapsing_example :
  let syms := mkSymbols (λ a, if decide (a = 4 ∨ a = 5)%N then Some (mkSymbol "g") else None) in
  let r := CleanupStacks [mkStack [5; 4; 9]%N (cost 3); mkStack [4; 9; 4]%N (cost 2)] syms in
  Stack_Stack <$> fst r = [[5; 9]; [5; 9; 5]]%N ∧
  snd r = {[ 5%N := "g" ]} ∧
  node_costs (Analyze empty_graph (fst r) (snd r)) 5 = Some (5, 7) ∧
  node_costs (Analyze empty_graph (fst r) (snd r)) 4 = None ∧
  fst (CleanupStacks (fst r) syms) = fst r ∧
  snd (CleanupStacks (fst r) syms) = snd r.
Proof. repeat split; reflexivity. Qed.

(** ** Address 0 as a symbol *)

(** C6 asks for exactly one node per symbol once two of its addresses have
    been collapsed.  At the stack [0, 5], both addresses named f, the code
    gives none: the first frame is dropped because [last] starts at 0, the
    second because it is rewritten to 0; [names] records f at 0, the stack
    is left empty and the graph has no node. *)
Lemma collapsing_at_zero :
  let r := CleanupStacks [mkStack [0; 5]%N (cost 10)] syms_zero in
  fst r = [mkStack [] (cost 10)] ∧
  snd r = {[ 0%N := "f" ]} ∧
  nodes (Analyze empty_graph (fst r) (snd r)) = ∅.
Proof. repeat split; reflexivity. Qed.

(** C7 asks a second run to change no stack and to return the same map.
    At the same stack the second run changes no stack, but it finds no
    address left and returns an empty map where the first run returned the
    entry of address 0. *)
Lemma idempotence_at_zero :
  let first := CleanupStacks [mkStack [0; 5]%N (cost 10)] syms_zero in
  let second := CleanupStacks (fst first) syms_zero in
  fst second = fst first ∧
  snd first = {[ 0%N := "f" ]} ∧
  snd second = ∅ ∧
  snd second ≠ snd first.
Proof. repeat split; try reflexivity. intros H. discriminate H. Qed.

(** ** Rendering *)
Section render.
Context (RemoveTypes : string → string) (GOOS : string).

Lemma degree_insert m a b v : degree (<[a := v]> m) b = if decide (b = a) then v else degree m b.
Proof.
  unfold degree. case_decide as Hb.
  - subst. by rewrite lookup_insert_eq.
  - by rewrite lookup_insert_ne.
Qed.

Lemma degrees_ok_empty : degrees_ok (mkDegrees ∅ ∅ []).
Proof.
  split; [|split].
  - by intros st ?%elem_of_nil.
  - intros a. unfold degree. simpl. rewrite lookup_empty. simpl.
    split; [done|]. split; [done|]. by intros (? & ? & ?%elem_of_nil).
  - intros a. unfold degree. simpl. rewrite lookup_empty. simpl.
    split; [done|]. split; [done|]. by intros (? & ? & ?%elem_of_nil).
Qed.

(** Keeping an edge raises both degrees and emits its statement. *)
Lemma degrees_ok_keep d e w :
  degrees_ok d →
  degrees_ok (mkDegrees (<[dst e := degree (indegree d) (dst e) + 1]> (indegree d))
                        (<[src e := degree (outdegree d) (src e) + 1]> (outdegree d))
                        (emitted d ++ [EdgeStmt (src e) (dst e) w])).
Proof.
  intros (Hstmts & Hin & Hout). split; [|split]; simpl.
  - intros st [?| ->%list_elem_of_singleton]%elem_of_app; [by apply Hstmts|eauto].
  - intros a. rewrite degree_insert. destruct (Hin a) as [Hpos Hiff].
    case_decide as Ha.
    + subst a. destruct (Hin (dst e)) as [Hpos' _]. split; [lia|].
      split; [|lia]. intros _. exists (src e), w. apply elem_of_app. right. left.
    + split; [done|]. rewrite Hiff. split.
      * intros (from & w' & Hel). exists from, w'. apply elem_of_app. by left.
      * intros (from & w' & [Hel|Hel%list_elem_of_singleton]%elem_of_app); [eauto|].
        by injection Hel as -> -> ->.
  - intros a. rewrite degree_insert. destruct (Hout a) as [Hpos Hiff].
    case_decide as Ha.
    + subst a. destruct (Hout (src e)) as [Hpos' _]. split; [lia|].
      split; [|lia]. intros _. exists (dst e), w. apply elem_of_app. right. left.
    + split; [done|]. rewrite Hiff. split.
      * intros (to & w' & Hel). exists to, w'. apply elem_of_app. by left.
      * intros (to & w' & [Hel|Hel%list_elem_of_singleton]%elem_of_app); [eauto|].
        by injection Hel as -> -> ->.
Qed.

Lemma degrees_ok_edge g d e : degrees_ok d → degrees_ok (GraphViz_edge g d e).
Proof.
  intros Hok. unfold GraphViz_edge.
  repeat case_decide; try done; by apply degrees_ok_keep.
Qed.

Lemma degrees_ok_edges g el : ∀ d, degrees_ok d → degrees_ok (foldl (GraphViz_edge g) d el).
Proof.
  induction el as [|e el IH]; intros d Hok; [done|].
  simpl. by apply IH, degrees_ok_edge.
Qed.

(** A node has a degree above zero exactly when an emitted edge statement
    starts or ends at it. *)
Lemma degrees_ok_has_edge d a :
  degrees_ok d →
  has_edge (emitted d) a = false ↔
    degree (indegree d) a = 0 ∧ degree (outdegree d) a = 0.
Proof.
  intros (Hstmts & Hin & Hout).
  destruct (Hin a) as [_ Hi], (Hout a) as [_ Ho].
  unfold has_edge. rewrite <- not_true_iff_false, existsb_exists. split.
  - intros Hno. split.
    + destruct (decide (degree (indegree d) a = 0)) as [|Hne]; [done|].
      apply Hi in Hne as (from & w & Hel). exfalso. apply Hno.
      exists (EdgeStmt from a w). split; [by apply list_elem_of_In|].
      simpl. apply bool_decide_eq_true_2. by right.
    + destruct (decide (degree (outdegree d) a = 0)) as [|Hne]; [done|].
      apply Ho in Hne as (to & w & Hel). exfalso. apply Hno.
      exists (EdgeStmt a to w). split; [by apply list_elem_of_In|].
      simpl. apply bool_decide_eq_true_2. by left.
  - intros [Hi0 Ho0] (st & Hel%list_elem_of_In & Ht).
    destruct st as [|from to w|]; simpl in Ht; try done.
    apply bool_decide_eq_true_1 in Ht as [->| ->].
    + assert (degree (outdegree d) a ≠ 0) by (apply Ho; eauto). done.
    + assert (degree (indegree d) a ≠ 0) by (apply Hi; eauto). done.
Qed.

Lemma sumZ_Permutation l1 l2 : l1 ≡ₚ l2 → sumZ l1 = sumZ l2.
Proof.
  induction 1 as [|x l1 l2 _ IH|x y l|l1 l2 l3 _ IH1 _ IH2]; rewrite ?sumZ_cons; lia.
Qed.

(** The node loop emits a statement only for a node with a degree above
    zero. *)
Lemma GraphViz_nodes_stmts s d kl : ∀ t st,
  st ∈ node_stmts (fst (GraphViz_nodes RemoveTypes s d kl t)) →
  st ∈ node_stmts t ∨
  ∃ n label, st = NodeStmt (addr n) label ∧
    ¬ (degree (indegree d) (addr n) = 0 ∧ degree (outdegree d) (addr n) = 0).
Proof.
  induction kl as [|[k n] kl IH]; intros t st; simpl; [by left|].
  case_decide as Hdeg.
  - intros Hst. by apply IH in Hst.
  - destruct (Label RemoveTypes s n) as [l|]; simpl; [|by left].
    intros Hst. apply IH in Hst as [Hst|Hst]; [|by right].
    simpl in Hst. apply elem_of_app in Hst as [?| ->%list_elem_of_singleton]; [by left|].
    right. eauto.
Qed.


Lemma has_edge_app out1 out2 a : has_edge (out1 ++ out2) a = has_edge out1 a || has_edge out2 a.
Proof. apply existsb_app. Qed.

Lemma has_edge_preamble a : has_edge (preamble GOOS) a = false.
Proof. unfold preamble. by case_decide. Qed.

Lemma has_edge_no_edge out a :
  (∀ from to w, EdgeStmt from to w ∉ out) → has_edge out a = false.
Proof.
  intros Hno. apply not_true_iff_false. unfold has_edge. rewrite existsb_exists.
  intros (st & Hel%list_elem_of_In & Ht). destruct st as [|from to w|]; try done.
  by apply (Hno from to w).
Qed.


Lemma preamble_Raw st : st ∈ preamble GOOS → ∃ line, st = Raw line.
Proof.
  unfold preamble. case_decide; simpl; intros Hst;
    repeat (apply elem_of_cons in Hst as [->|Hst]; [eauto|]); by apply elem_of_nil in Hst.
Qed.

(** What a run from a known threshold wrote, taken apart. *)
Lemma GraphViz_from_written s thr el kl :
  let d := foldl (GraphViz_edge (Graph s)) (mkDegrees ∅ ∅ []) el in
  let r := GraphViz_nodes RemoveTypes s d kl (mkTotals 0 0 [] []) in
  let run := GraphViz_from RemoveTypes GOOS s thr el kl in
  degrees_ok d ∧
  (∀ a, has_edge (written run) a = has_edge (emitted d) a) ∧
  (∀ a label, NodeStmt a label ∈ written run → NodeStmt a label ∈ node_stmts (fst r)) ∧
  finished run = snd r ∧
  (snd r = true →
   LogNotShown (GoInt.div (missing (fst r)) 1024) ∈ logged run).
Proof.
  intros d r run.
  assert (degrees_ok d) as Hd by apply degrees_ok_edges, degrees_ok_empty.
  assert (∀ a, has_edge (node_stmts (fst r)) a = false) as Hnodes.
  { intros a. apply has_edge_no_edge. intros from to w Hel.
    apply GraphViz_nodes_stmts in Hel as [[]%elem_of_nil|(n & l & [=] & _)]. }
  split; [done|].
  subst run. unfold GraphViz_from. fold d. fold r.
  destruct r as [t ok] eqn:Hr. cbn [fst snd] in *.
  destruct ok; cbn [written finished logged].
  - split; [|split; [|split; [done|]]].
    + intros a. rewrite !has_edge_app, has_edge_preamble, Hnodes. simpl.
      by rewrite !orb_false_r.
    + intros a label Hel.
      apply elem_of_app in Hel as [(? & [=])%preamble_Raw|Hel].
      apply elem_of_app in Hel as [Hel|Hel].
      { destruct Hd as (Hstmts & _). by destruct (Hstmts _ Hel) as (? & ? & ? & [=]). }
      apply elem_of_app in Hel as [Hel|[=]%list_elem_of_singleton]. done.
    + intros _. apply elem_of_app. right. apply elem_of_app. right. left.
  - split; [|split; [|split; [done|done]]].
    + intros a. rewrite !has_edge_app, has_edge_preamble, Hnodes. simpl.
      by rewrite !orb_false_r.
    + intros a label Hel.
      apply elem_of_app in Hel as [(? & [=])%preamble_Raw|Hel].
      apply elem_of_app in Hel as [Hel|Hel]; [|done].
      destruct Hd as (Hstmts & _). by destruct (Hstmts _ Hel) as (? & ? & ? & [=]).
Qed.


(** [GraphViz] itself is one of the possible runs. *)
Lemma GraphViz_is_run s : GraphViz_run RemoveTypes GOOS s (GraphViz RemoveTypes GOOS s).
Proof.
  unfold GraphViz.
  destruct (nodeSizeThreshold (Graph s) (Params s)) as [thr|] eqn:Hthr.
  - apply GraphViz_run_from; [done| | |done].
    + apply merge_sort_Permutation.
    + apply Sorted_merge_sort. intros x y. lia.
  - by apply GraphViz_run_panic.
Qed.


End render.


(** The scenario rendered: the edge 3 → 1 is too light to be kept next to
    2 → 1, so node 3 is left without an edge and is not shown. *)
Example GraphViz_scenario :
  GraphViz (λ label, label) "linux" scenario_state =
    mkRun [Raw "digraph G {"; Raw "nodesep = 0.2"; Raw "ranksep = 0.3";
           Raw "node [fontsize=9]"; Raw "edge [fontsize=9]";
           EdgeStmt 2 1 0;
           NodeStmt 2 "0x2\n0k of 0k (93.8% of total)";
           NodeStmt 1 "0x1\n0k of 0k (100.0% of total)";
           Raw "}"]
          [LogKeeping 100 0; LogNoEdges 3 0; LogNotShown 0; LogKept 0]
          true.
Proof. reflexivity. Qed.

(** * Further properties of the code *)

(** ** CleanupStacks: the stacks it leaves *)
Section cleanup_more.
Context (syms : Symbols).

Lemma frames_no_adjacent l : ∀ last, no_adjacent last (frames last l).
Proof.
  induction l as [|a l IH]; intros last; simpl; [done|].
  case_decide; [apply IH|]. simpl. split; [done|apply IH].
Qed.

Lemma frames_of_no_adjacent l : ∀ last, no_adjacent last l → frames last l = l.
Proof.
  induction l as [|a l IH]; intros last; simpl; [done|].
  intros [Hne Hl]. rewrite decide_False by done. by rewrite IH.
Qed.

Lemma no_adjacent_weaken l last : no_adjacent last l → no_adjacent None l.
Proof. destruct l as [|a l]; simpl; [done|]. intros [_ ?]. done. Qed.

Lemma no_adjacent_lookup l : ∀ last i x,
  no_adjacent last l → l !! i = Some x → l !! S i ≠ Some x.
Proof.
  induction l as [|a l IH]; intros last i x Hl Hi; [done|].
  destruct Hl as [_ Hl]. destruct i as [|i]; simpl in *.
  - simplify_eq. destruct l as [|b l]; simpl in *; [done|].
    destruct Hl as [Hne _]. congruence.
  - by apply (IH (Some a)).
Qed.

Lemma frames_length_le l : ∀ last, (length (frames last l) ≤ length l)%nat.
Proof.
  induction l as [|a l IH]; intros last; simpl; [done|].
  case_decide; simpl; [specialize (IH last)|specialize (IH (Some a))]; lia.
Qed.

(** X1: [CleanupStacks] in closed form.  Every stack is left as the list of
    the canonical addresses of its frames (the first address seen, over all
    stacks in order, with the same symbol name; the address itself when it
    does not resolve), collapsed against a first [last] of 0, with its cost
    untouched; and the map returned holds at an address the name of its
    symbol exactly when the address is the first one seen with that name. *)
Theorem CleanupStacks_closed_form (stacks : list Stack) :
  let all := all_addrs stacks in
  let r := CleanupStacks stacks syms in
  fst r = (λ s, mkStack (collapse 0 (canonical syms all <$> Stack_Stack s)) (Stack_Stats s))
            <$> stacks ∧
  ∀ a, snd r !! a =
       match symbol_of syms a with
       | Some nm => if decide (first_seen syms nm all = Some a) then Some nm else None
       | None => None
       end.
Proof. intros all r. apply CleanupStacks_spec. Qed.

(** X2: the stacks [CleanupStacks] leaves: as many as it was given, each
    with the cost it had and no longer than it was, none with two equal
    addresses next to each other, and none starting with address 0. *)
Theorem cleaned_stacks_shape (stacks : list Stack) :
  let out := fst (CleanupStacks stacks syms) in
  length out = length stacks ∧
  ∀ i s', out !! i = Some s' →
    ∃ s, stacks !! i = Some s ∧
         Stack_Stats s' = Stack_Stats s ∧
         (length (Stack_Stack s') ≤ length (Stack_Stack s))%nat ∧
         head (Stack_Stack s') ≠ Some 0%N ∧
         ∀ j x, Stack_Stack s' !! j = Some x → Stack_Stack s' !! S j ≠ Some x.
Proof.
  intros out. subst out.
  destruct (CleanupStacks_spec syms stacks) as [-> _].
  split; [by rewrite length_fmap|].
  intros i s' Hi. rewrite list_lookup_fmap in Hi.
  destruct (stacks !! i) as [s|] eqn:Hs; [|done]. injection Hi as <-.
  exists s. split; [done|]. split; [done|]. simpl. split; [|split].
  - etrans; [apply frames_length_le|]. by rewrite length_fmap.
  - apply collapse_head.
  - intros j x. apply (no_adjacent_lookup _ (Some 0%N)), frames_no_adjacent.
Qed.

(** X3: [CleanupStacks] invents no address and keeps one address per
    symbol: an address of a stack it leaves is an address of the stacks it
    was given, and two such addresses that resolve to the same name are the
    same address. *)
Theorem cleaned_addresses (stacks : list Stack) (x : N) :
  let out := fst (CleanupStacks stacks syms) in
  x ∈ all_addrs out →
  x ∈ all_addrs stacks ∧
  ∀ y, y ∈ all_addrs out → is_Some (symbol_of syms x) →
       symbol_of syms y = symbol_of syms x → y = x.
Proof.
  intros out Hx. subst out.
  destruct (CleanupStacks_spec syms stacks) as [Hout _]. rewrite Hout in *.
  split.
  - apply cleaned_elem_of in Hx as (a & Ha & ->).
    destruct (symbol_of syms a) as [nm|] eqn:Hs.
    + destruct (first_seen_Some syms nm _ _ (canonical_first_seen syms _ a nm Hs Ha)) as [? _].
      done.
    + by rewrite canonical_unresolved.
  - intros y Hy [nm Hnm] Hsame. rewrite Hnm in Hsame.
    destruct (cleaned_first_seen syms stacks x nm Hx Hnm) as [Hfx _].
    destruct (cleaned_first_seen syms stacks y nm Hy Hsame) as [Hfy _].
    congruence.
Qed.

(** X4: the map [CleanupStacks] returns.  An entry names an address that
    occurs in the stacks given, with the name the resolver gives that
    address; no two entries carry the same name; and every name met in the
    stacks has its entry. *)
Theorem names_entries (stacks : list Stack) :
  let names := snd (CleanupStacks stacks syms) in
  (∀ a nm, names !! a = Some nm →
     a ∈ all_addrs stacks ∧ symbol_of syms a = Some nm ∧
     ∀ b, names !! b = Some nm → b = a) ∧
  (∀ a nm, a ∈ all_addrs stacks → symbol_of syms a = Some nm →
     ∃ r, names !! r = Some nm ∧ canonical syms (all_addrs stacks) a = r).
Proof.
  intros names. subst names.
  destruct (CleanupStacks_spec syms stacks) as [_ Hnames].
  assert (∀ a nm, snd (CleanupStacks stacks syms) !! a = Some nm →
            first_seen syms nm (all_addrs stacks) = Some a) as Hfirst.
  { intros a nm. rewrite Hnames. unfold name_entry.
    destruct (symbol_of syms a) as [nm'|]; [|done].
    case_decide; [|done]. by intros [= <-]. }
  split.
  - intros a nm Ha. pose proof (Hfirst a nm Ha) as Hf.
    destruct (first_seen_Some syms _ _ _ Hf) as [Hin Hs].
    split; [done|]. split; [done|].
    intros b Hb. pose proof (Hfirst b nm Hb). congruence.
  - intros a nm Ha Hs. exists (canonical syms (all_addrs stacks) a). split; [|done].
    rewrite Hnames. apply name_entry_first_seen. by apply canonical_first_seen.
Qed.

(** X5: running [CleanupStacks] again on the stacks it left changes none of
    them; and it returns the same map again unless address 0 resolves to a
    symbol. *)
Theorem CleanupStacks_second_run (stacks : list Stack) :
  let first := CleanupStacks stacks syms in
  let second := CleanupStacks (fst first) syms in
  fst second = fst first ∧
  (Lookup syms 0%N = None → snd second = snd first).
Proof.
  intros first second.
  destruct (CleanupStacks_idempotent syms stacks) as [Hstacks Hnames].
  split; [done|]. intros Hzero. apply Hnames. unfold symbol_of. by rewrite Hzero.
Qed.

(** X6: when no address of the stacks resolves, [CleanupStacks] rewrites
    nothing: it returns an empty map and only drops, in every stack, the
    addresses equal to the one kept before them and the leading zeros. *)
Theorem CleanupStacks_unresolved (stacks : list Stack) :
  (∀ a, a ∈ all_addrs stacks → Lookup syms a = None) →
  let r := CleanupStacks stacks syms in
  snd r = ∅ ∧
  fst r = (λ s, mkStack (collapse 0 (Stack_Stack s)) (Stack_Stats s)) <$> stacks.
Proof.
  intros Hnone r. subst r.
  assert (∀ a, a ∈ all_addrs stacks → symbol_of syms a = None) as Hnone'.
  { intros a Ha. unfold symbol_of. by rewrite (Hnone a Ha). }
  destruct (CleanupStacks_spec syms stacks) as [Hout Hnames]. split.
  - apply map_eq. intros a. rewrite Hnames, lookup_empty. unfold name_entry.
    destruct (symbol_of syms a) as [nm|] eqn:Hs; [|done].
    case_decide as Hf; [|done].
    destruct (first_seen_Some syms _ _ _ Hf) as [Hin _].
    rewrite (Hnone' a Hin) in Hs. done.
  - rewrite Hout. apply list_fmap_ext. intros i s Hi.
    apply list_elem_of_lookup_2 in Hi. unfold cleaned. f_equal. f_equal.
    rewrite <- (list_fmap_id (Stack_Stack s)) at 2.
    apply list_fmap_ext. intros j a Hj. apply list_elem_of_lookup_2 in Hj.
    apply canonical_unresolved, Hnone', all_addrs_elem_of. eauto.
Qed.

End cleanup_more.

(** ** Analyze: edges *)
Section analyze_more.
Context (names : gmap N string).

(** The steps walked from the state [last] through the frames [fr]. *)
Lemma steps_cons p a fr : steps (p :: a :: fr) = (a, p) :: steps (a :: fr).
Proof. done. Qed.

Lemma edge_weight_visit stats g last a e :
  edge_weight (edges (Analyze_visit names stats g last a)) e =
    if decide (last = Some (dst e) ∧ a = src e)
    then GoInt.add (edge_weight (edges g) e) (InuseBytes stats)
    else edge_weight (edges g) e.
Proof.
  unfold Analyze_visit, edge_weight. destruct e as [x y].
  destruct last as [l|]; simpl.
  - case_decide as He.
    + destruct He as [[= ->] ->]. by rewrite lookup_insert_eq.
    + rewrite lookup_insert_ne; [done|]. intros [= -> ->]. by apply He.
  - done.
Qed.

Lemma edges_visit stats g last a e :
  is_Some (edges (Analyze_visit names stats g last a) !! e) ↔
    is_Some (edges g !! e) ∨ last = Some (dst e) ∧ a = src e.
Proof.
  unfold Analyze_visit. destruct e as [x y]. destruct last as [l|]; simpl.
  - destruct (decide ((x, y) = (a, l))) as [[= -> ->]|Hne].
    + rewrite lookup_insert_eq. split; [by right|by eexists].
    + rewrite lookup_insert_ne by done. split; [by left|].
      intros [?|[[= ->] ->]]; done.
  - split; [by left|]. by intros [?|[[=] _]].
Qed.

Lemma count_cons (e e' : edge) l :
  length (filter (λ x, x = e) (e' :: l)) =
    ((if decide (e' = e) then 1 else 0) + length (filter (λ x, x = e) l))%nat.
Proof. rewrite filter_cons. by case_decide. Qed.

(** The inner loop adds the bytes in use once for every walk of the edge;
    [prev] is the path up to and with the frame [last] names. *)
Lemma edge_weight_frames stats e l : ∀ g last,
  edge_weight (edges (fst (foldl (Analyze_frame names stats) (g, last) l))) e =
    Nat.iter (length (filter (λ x, x = e)
                (steps (from_option (λ p, [p]) [] last ++ frames last l))))
      (λ v, GoInt.add v (InuseBytes stats)) (edge_weight (edges g) e).
Proof.
  induction l as [|a l IH]; intros g last.
  - simpl. rewrite app_nil_r. by destruct last.
  - simpl. case_decide as Hl; [by apply IH|].
    rewrite IH, edge_weight_visit. simpl.
    destruct last as [p|]; simpl.
    + rewrite steps_cons, count_cons. destruct e as [x y]. simpl.
      destruct (decide (Some p = Some y ∧ a = x)) as [[[= ->] ->]|He].
      * rewrite decide_True by done.
        by rewrite Nat.add_comm, Nat.add_1_r, Nat.iter_succ_r.
      * rewrite decide_False; [done|]. intros [= -> ->]. by apply He.
    + destruct (decide (None = Some (dst e) ∧ a = src e)) as [[[=] _]|]. done.
Qed.

Lemma edges_frames stats e l : ∀ g last,
  is_Some (edges (fst (foldl (Analyze_frame names stats) (g, last) l)) !! e) ↔
    is_Some (edges g !! e) ∨
    e ∈ steps (from_option (λ p, [p]) [] last ++ frames last l).
Proof.
  induction l as [|a l IH]; intros g last.
  - simpl. rewrite app_nil_r. destruct last; simpl; rewrite elem_of_nil; naive_solver.
  - simpl. case_decide as Hl; [by apply IH|].
    rewrite IH, edges_visit. simpl. destruct last as [p|]; simpl.
    + rewrite steps_cons, elem_of_cons. destruct e as [x y]. simpl.
      split; [intros [[?|[[= ->] ->]]|?]|intros [?|[[= -> ->]|?]]]; eauto.
    + split; [intros [[?|[[=] _]]|?]|intros [?|?]]; eauto.
Qed.

Lemma edge_weight_stacks e stacks : ∀ g,
  GoInt.wrap (edge_weight (edges g) e) = edge_weight (edges g) e →
  edge_weight (edges (Analyze_stacks names g stacks)) e =
    GoInt.wrap (edge_weight (edges g) e + weight_of_walks e stacks).
Proof.
  unfold weight_of_walks.
  induction stacks as [|s stacks IH]; intros g Hg.
  - simpl. by rewrite Z.add_0_r.
  - rewrite fmap_cons, sumZ_cons, Analyze_stacks_cons.
    assert (edge_weight (edges (Analyze_stack names g s)) e =
      GoInt.wrap (edge_weight (edges g) e + InuseBytes (Stack_Stats s) * Z.of_nat (walks e s)))
      as Hs.
    { unfold Analyze_stack. rewrite edge_weight_frames. simpl. by apply iter_add_wrap. }
    rewrite IH; rewrite Hs.
    + rewrite wrap_add_l. f_equal. lia.
    + apply wrap_wrap.
Qed.

Lemma edges_stacks e stacks : ∀ g,
  is_Some (edges (Analyze_stacks names g stacks) !! e) ↔
    is_Some (edges g !! e) ∨
    ∃ s, s ∈ stacks ∧ e ∈ steps (frames None (Stack_Stack s)).
Proof.
  induction stacks as [|s stacks IH]; intros g.
  - simpl. split; [by left|]. intros [?|(s & []%elem_of_nil & _)]. done.
  - rewrite Analyze_stacks_cons, IH. unfold Analyze_stack. rewrite edges_frames. simpl.
    split.
    + intros [[?|?]|(s' & ? & ?)]; [by left|right..].
      * exists s. split; [left|done].
      * exists s'. split; [by right|done].
    + intros [?|(s' & [->|?]%elem_of_cons & ?)]; [by left; left|by left; right|].
      right. by exists s'.
Qed.

(** A step of a path joins two neighbours of the path. *)
Lemma steps_lookup (fr : list N) x y :
  (x, y) ∈ steps fr → ∃ i, fr !! i = Some y ∧ fr !! S i = Some x.
Proof.
  unfold steps. intros (i & Hi)%list_elem_of_lookup_1.
  apply lookup_zip_with_Some in Hi as (x' & y' & [= -> ->] & Hx & Hy).
  exists i. split; [done|]. by rewrite <- lookup_tail.
Qed.

End analyze_more.

Lemma count_pos (e : edge) (l : list edge) :
  (0 < length (filter (λ x, x = e) l))%nat ↔ e ∈ l.
Proof.
  induction l as [|e' l IH].
  - simpl. rewrite elem_of_nil. lia.
  - rewrite filter_cons, elem_of_cons. case_decide; simpl; [|rewrite IH]; naive_solver lia.
Qed.

(** X7: edge weights.  The weight [Analyze] stores at an edge is the sum,
    wrapped to an int, of the bytes in use of every stack times the number
    of times the stack walks the edge: its source right after its
    destination, among the frames that are not skipped.  The edge is in the
    table exactly when some stack walks it. *)
Theorem Analyze_edge_weights (stacks : list Stack) (names : gmap N string) (e : edge) :
  let g := Analyze empty_graph stacks names in
  edge_weight (edges g) e = GoInt.wrap (weight_of_walks e stacks) ∧
  (is_Some (edges g !! e) ↔ ∃ s, s ∈ stacks ∧ (0 < walks e s)%nat).
Proof.
  intros g. subst g. split.
  - change (edges (Analyze empty_graph stacks names))
      with (edges (Analyze_stacks names empty_graph stacks)).
    by rewrite edge_weight_stacks.
  - change (edges (Analyze empty_graph stacks names))
      with (edges (Analyze_stacks names empty_graph stacks)).
    rewrite edges_stacks. simpl. rewrite lookup_empty. split.
    + intros [[? [=]]|(s & Hs & He)]. exists s. split; [done|]. by apply count_pos.
    + intros (s & Hs & He). right. exists s. split; [done|]. by apply count_pos.
Qed.

(** X8: the graph [Analyze] builds is closed and has no loop: both ends of
    every edge are nodes of the graph, and no edge joins a node to itself. *)
Theorem Analyze_edges_closed (stacks : list Stack) (names : gmap N string) (e : edge) :
  let g := Analyze empty_graph stacks names in
  is_Some (edges g !! e) →
  src e ≠ dst e ∧ is_Some (nodes g !! src e) ∧ is_Some (nodes g !! dst e).
Proof.
  intros g He. subst g.
  change (edges (Analyze empty_graph stacks names))
    with (edges (Analyze_stacks names empty_graph stacks)) in He.
  apply edges_stacks in He as [[? [=]]|(s & Hs & He)].
  destruct e as [x y]. apply steps_lookup in He as (i & Hy & Hx). simpl.
  split; [|split].
  - intros ->. by apply (no_adjacent_lookup _ None i y (frames_no_adjacent _ None)) in Hy.
  - apply nodes_Analyze. exists s. split; [done|].
    apply (frames_elem_of _ _ None). by apply list_elem_of_lookup_2 in Hx.
  - apply nodes_Analyze. exists s. split; [done|].
    apply (frames_elem_of _ _ None). by apply list_elem_of_lookup_2 in Hy.
Qed.

Lemma Analyze_edges_closed_witness :
  let g := Analyze empty_graph (scenario 1 2 3) ∅ in
  is_Some (edges g !! (2%N, 1%N)) ∧
  (src (2%N, 1%N) ≠ dst (2%N, 1%N) ∧
   is_Some (nodes g !! src (2%N, 1%N)) ∧ is_Some (nodes g !! dst (2%N, 1%N))).
Proof.
  assert (is_Some (edges (Analyze empty_graph (scenario 1 2 3) ∅) !! (2%N, 1%N))) as He
    by (by eexists).
  split; [exact He|].
  exact (Analyze_edges_closed (scenario 1 2 3) ∅ (2%N, 1%N) He).
Defined.

(** X9: the nodes [Analyze] builds: an address has a node exactly when it
    occurs in some stack, and the node carries that address and the name
    [names] holds for it, the empty name when it holds none. *)
Theorem Analyze_nodes (stacks : list Stack) (names : gmap N string) (x : N) :
  let g := Analyze empty_graph stacks names in
  (is_Some (nodes g !! x) ↔ ∃ s, s ∈ stacks ∧ x ∈ Stack_Stack s) ∧
  ∀ n, nodes g !! x = Some n → addr n = x ∧ name n = default EmptyString (names !! x).
Proof.
  intros g. split; [apply nodes_Analyze|].
  intros n Hn. by apply (node_fields_Analyze names stacks).
Qed.

(** X10: exclusive cost.  The [cur] of a node is the sum, wrapped to an
    int, of the costs of the stacks whose first frame is the node's
    address; a stack charges [cur] once, whatever follows its first frame. *)
Theorem Analyze_cur (stacks : list Stack) (names : gmap N string)
    (x : N) (n : Node) (f : field) :
  nodes (Analyze empty_graph stacks names) !! x = Some n →
  get f (cur n) = GoInt.wrap (cost_of_leaves f x stacks).
Proof. intros Hn. by rewrite <- (cur_at_node _ _ _ Hn), cur_Analyze. Qed.

Lemma Analyze_cur_witness :
  let stacks := [mkStack [1; 2; 1]%N (cost 10); mkStack [2; 2; 3]%N (cost 7)] in
  let n := mkNode 2 EmptyString (cost 7) (cost 17) in
  nodes (Analyze empty_graph stacks ∅) !! 2%N = Some n ∧
  get FInuseBytes (cur n) = GoInt.wrap (cost_of_leaves FInuseBytes 2 stacks).
Proof.
  intros stacks n.
  assert (nodes (Analyze empty_graph stacks ∅) !! 2%N = Some n) as Hn by reflexivity.
  split; [exact Hn|]. exact (Analyze_cur stacks ∅ 2 n FInuseBytes Hn).
Defined.

(** X11: on the stacks [CleanupStacks] leaves, the check of [Analyze]
    against a repeated frame never fires: every frame is visited, and the
    [cum] of a node is the sum, wrapped to an int, of the cost of every
    cleaned stack times the number of times its address stands in that
    stack. *)
Theorem cum_of_cleaned_stacks (stacks : list Stack) (syms : Symbols)
    (x : N) (n : Node) (f : field) :
  let r := CleanupStacks stacks syms in
  nodes (Analyze empty_graph (fst r) (snd r)) !! x = Some n →
  (∀ s, s ∈ fst r → frames None (Stack_Stack s) = Stack_Stack s) ∧
  get f (cum n) =
    GoInt.wrap (sumZ ((λ s, get f (Stack_Stats s) * Z.of_nat (occurrences x (Stack_Stack s)))
                      <$> fst r)).
Proof.
  intros r Hn.
  assert (∀ s, s ∈ fst r → frames None (Stack_Stack s) = Stack_Stack s) as Hall.
  { intros s Hs. subst r. destruct (CleanupStacks_spec syms stacks) as [Hout _].
    rewrite Hout in Hs. apply list_elem_of_fmap in Hs as (s0 & -> & _). simpl.
    apply frames_of_no_adjacent, (no_adjacent_weaken _ (Some 0%N)), frames_no_adjacent. }
  split; [done|].
  rewrite <- (cum_at_node _ _ _ Hn), cum_Analyze. f_equal.
  apply sumZ_ext. intros s Hs. unfold visits. by rewrite (Hall s Hs).
Qed.

Lemma cum_of_cleaned_stacks_witness :
  let stacks := [mkStack [5; 0; 7; 5]%N (cost 10); mkStack [7; 7; 9]%N (cost 3)] in
  let r := CleanupStacks stacks syms_zero in
  let n := mkNode 5 "f" (cost 10) (cost 20) in
  nodes (Analyze empty_graph (fst r) (snd r)) !! 5%N = Some n ∧
  (∀ s, s ∈ fst r → frames None (Stack_Stack s) = Stack_Stack s) ∧
  get FInuseBytes (cum n) =
    GoInt.wrap (sumZ ((λ s, get FInuseBytes (Stack_Stats s)
                            * Z.of_nat (occurrences 5 (Stack_Stack s))) <$> fst r)).
Proof.
  intros stacks r n.
  assert (nodes (Analyze empty_graph (fst r) (snd r)) !! 5%N = Some n) as Hn by reflexivity.
  split; [exact Hn|]. exact (cum_of_cleaned_stacks stacks syms_zero 5 n FInuseBytes Hn).
Defined.

(** ** Analyze: the size list *)

(** X12: the loop that swaps [nodeSizes[i]] with [nodeSizes[len-i-1]] for
    [i] below [len/2] reverses the list, whatever its length. *)
Theorem reverse_loop_reverses (l : list Z) :
  reverse_loop l = reverse l ∧ length (reverse_loop l) = length l.
Proof.
  rewrite reverse_loop_reverse. split; [done|apply length_reverse].
Qed.

(** X13: [NodeSizes] holds the cumulative bytes in use of exactly the nodes
    where they are positive, and does not depend on the order in which the
    node table was iterated: from any order of those sizes the sort and the
    reversal give the same list. *)
Theorem NodeSizes_entries (g0 : graph) (stacks : list Stack) (names : gmap N string) :
  let g := Analyze g0 stacks names in
  (∀ x, x ∈ NodeSizes g ↔
        0 < x ∧ ∃ k n, nodes g !! k = Some n ∧ InuseBytes (cum n) = x) ∧
  (∀ l, l ≡ₚ collect_sizes (nodes g) → NodeSizes g = reverse_loop (sort_Ints l)).
Proof.
  intros g. split.
  - intros x. subst g. rewrite NodeSizes_Permutation. unfold collect_sizes, sizes.
    rewrite list_elem_of_filter, list_elem_of_fmap. split.
    + intros [Hpos ([k n] & -> & Hkn%elem_of_map_to_list)]. eauto.
    + intros [Hpos (k & n & Hkn & <-)]. split; [done|].
      exists (k, n). split; [done|]. by apply elem_of_map_to_list.
  - intros l Hl. subst g. rewrite NodeSizes_Analyze, reverse_loop_reverse.
    f_equal. by apply sort_Ints_order.
Qed.

(** ** GraphViz: the edge loop *)
Section edges_more.
Context (g : graph).

Lemma edges_handled_nil : edges_handled g [] (mkDegrees ∅ ∅ []).
Proof.
  split; [apply degrees_ok_empty|]. split.
  - by intros st ?%elem_of_nil.
  - by intros e ?%elem_of_nil.
Qed.

Lemma edge_key_le_trans : Transitive (λ x y : edge, edge_key g x <= edge_key g y).
Proof. intros x y z. lia. Qed.

(** One more edge, not before any edge handled in the order of the keys. *)
Lemma edges_handled_step handled d e :
  edges_handled g handled d →
  (∀ e0, e0 ∈ handled → edge_key g e0 <= edge_key g e) →
  edges_handled g (handled ++ [e]) (GraphViz_edge g d e).
Proof.
  intros (Hok & Hfrom & Hfloor) Hsorted.
  split; [by apply degrees_ok_edge|].
  assert (∀ d', (∀ st, st ∈ emitted d → st ∈ emitted d') →
     ∀ e0, e0 ∈ handled →
     (30 <= GoInt.div (edge_weight (edges g) e0) 1024 → edge_stmt g e0 ∈ emitted d') ∧
     ∃ e', e' ∈ handled ++ [e] ∧ edge_stmt g e' ∈ emitted d' ∧ dst e' = dst e0 ∧
           edge_key g e' <= edge_key g e0) as Hold.
  { intros d' Hgrow e0 He0. destruct (Hfloor e0 He0) as [Hbig (e' & He' & Hst & Hdst & Hkey)].
    split; [by intros ?; apply Hgrow, Hbig|].
    exists e'. split; [apply elem_of_app; by left|]. split; [by apply Hgrow|done]. }
  unfold GraphViz_edge.
  set (keep := mkDegrees _ _ _).
  assert (edge_stmt g e ∈ emitted keep) as Hnew
    by (simpl; apply elem_of_app; right; left).
  assert ((∀ st, st ∈ emitted keep → ∃ e0, e0 ∈ handled ++ [e] ∧ st = edge_stmt g e0) ∧
          (∀ e0, e0 ∈ handled ++ [e] →
             (30 <= GoInt.div (edge_weight (edges g) e0) 1024 →
              edge_stmt g e0 ∈ emitted keep) ∧
             ∃ e', e' ∈ handled ++ [e] ∧ edge_stmt g e' ∈ emitted keep ∧
                   dst e' = dst e0 ∧ edge_key g e' <= edge_key g e0)) as Hkeep.
  { split.
    - intros st [Hst| ->%list_elem_of_singleton]%elem_of_app.
      + destruct (Hfrom st Hst) as (e0 & He0 & ->). exists e0.
        split; [apply elem_of_app; by left|done].
      + exists e. split; [apply elem_of_app; right; left|done].
    - intros e0 [He0| ->%list_elem_of_singleton]%elem_of_app.
      + apply Hold; [|done]. intros st Hst. simpl. apply elem_of_app. by left.
      + split; [done|]. exists e. split; [apply elem_of_app; right; left|]. done. }
  case_decide as Hdeg; [done|].
  case_decide as Hsmall; [|done].
  split.
  - intros st Hst. destruct (Hfrom st Hst) as (e0 & He0 & ->). exists e0.
    split; [apply elem_of_app; by left|done].
  - intros e0 [He0| ->%list_elem_of_singleton]%elem_of_app; [by apply Hold|].
    split; [lia|].
    destruct Hok as (_ & Hin & _). destruct (Hin (dst e)) as [_ Hiff].
    apply Hiff in Hdeg as (from & w & Hst).
    destruct (Hfrom _ Hst) as (e' & He' & Heq).
    exists e'. split; [apply elem_of_app; by left|].
    split; [by rewrite <- Heq|]. split; [|by apply Hsorted].
    unfold edge_stmt in Heq. by injection Heq as _ -> _.
Qed.

Lemma edges_handled_loop rest : ∀ handled d,
  edges_handled g handled d →
  StronglySorted (λ x y, edge_key g x <= edge_key g y) (handled ++ rest) →
  edges_handled g (handled ++ rest) (foldl (GraphViz_edge g) d rest).
Proof.
  induction rest as [|e rest IH]; intros handled d Hd Hsorted.
  - simpl. by rewrite app_nil_r.
  - simpl. rewrite (cons_middle e handled rest), app_assoc in *.
    apply IH; [|done]. apply edges_handled_step; [done|].
    intros e0 He0. apply StronglySorted_app_1_l in Hsorted.
    apply (StronglySorted_app_1_elem_of _ handled [e] e0 e Hsorted); [done|left].
Qed.

End edges_more.

(** ** GraphViz: what a run writes *)
Section render_more.
Context (RemoveTypes : string → string) (GOOS : string).

Lemma edges_between_elem_of g (kept : gmap N Node) e :
  e ∈ edges_between g kept ↔
    is_Some (edges g !! e) ∧ is_Some (kept !! src e) ∧ is_Some (kept !! dst e).
Proof.
  unfold edges_between. rewrite list_elem_of_filter, list_elem_of_fmap. split.
  - intros [Hk ([e' w] & -> & Hew%elem_of_map_to_list)]. split; [by eexists|done].
  - intros [[w Hw] Hk]. split; [done|]. exists (e, w). split; [done|].
    by apply elem_of_map_to_list.
Qed.

(** The edge statements of a run are those of the edge loop. *)
Lemma GraphViz_from_edges s thr el kl from to w :
  EdgeStmt from to w ∈ written (GraphViz_from RemoveTypes GOOS s thr el kl) ↔
  EdgeStmt from to w ∈ emitted (foldl (GraphViz_edge (Graph s)) (mkDegrees ∅ ∅ []) el).
Proof.
  unfold GraphViz_from.
  set (d := foldl _ _ el).
  pose proof (GraphViz_nodes_stmts RemoveTypes s d kl (mkTotals 0 0 [] [])) as Hnodes.
  destruct (GraphViz_nodes RemoveTypes s d kl _) as [t ok]. simpl in Hnodes.
  assert (EdgeStmt from to w ∉ node_stmts t) as Hno.
  { intros [[]%elem_of_nil|(n & l & [=] & _)]%Hnodes. }
  assert (EdgeStmt from to w ∉ preamble GOOS) as Hpre
    by (by intros (? & [=])%preamble_Raw).
  destruct ok; cbn [written]; rewrite !elem_of_app; [rewrite list_elem_of_singleton|];
    naive_solver.
Qed.

(** X14: the edge statements of a run.  Every edge statement written is the
    statement of an edge of the graph whose two ends are kept nodes, and its
    label is the weight of that edge divided by 1024, rounded toward zero. *)
Theorem written_edges_are_kept (s : state) (r : run) (threshold : Z)
    (from to : N) (w : Z) :
  GraphViz_run RemoveTypes GOOS s r →
  nodeSizeThreshold (Graph s) (Params s) = Some threshold →
  EdgeStmt from to w ∈ written r →
  is_Some (edges (Graph s) !! (from, to)) ∧
  is_Some (keptNodes (Graph s) threshold !! from) ∧
  is_Some (keptNodes (Graph s) threshold !! to) ∧
  w = GoInt.div (edge_weight (edges (Graph s)) (from, to)) 1024.
Proof.
  intros Hrun Hthr Hst.
  destruct Hrun as [Hnone|thr el kl Hthr' Hel Hsorted Hkl]; [congruence|].
  simplify_eq. apply GraphViz_from_edges in Hst.
  apply Sorted_StronglySorted in Hsorted; [|apply edge_key_le_trans].
  destruct (edges_handled_loop (Graph s) el [] _ (edges_handled_nil _) Hsorted)
    as (_ & Hfrom & _).
  simpl in Hfrom. destruct (Hfrom _ Hst) as ([x y] & He & [= -> -> ->]).
  rewrite Hel in He. apply edges_between_elem_of in He as (? & ? & ?). done.
Qed.

(** X15: the floors of the edge loop.  Of the edges between kept nodes,
    every one of 30k or more is written; and every one has, into its
    destination, a written edge that the sort did not put after it: one at
    least as heavy, when neither weight is the least int. *)
Theorem edge_floors (s : state) (r : run) (threshold : Z) (e : edge) :
  GraphViz_run RemoveTypes GOOS s r →
  nodeSizeThreshold (Graph s) (Params s) = Some threshold →
  is_Some (edges (Graph s) !! e) →
  is_Some (keptNodes (Graph s) threshold !! src e) →
  is_Some (keptNodes (Graph s) threshold !! dst e) →
  (30 <= GoInt.div (edge_weight (edges (Graph s)) e) 1024 →
   edge_stmt (Graph s) e ∈ written r) ∧
  ∃ e', edge_stmt (Graph s) e' ∈ written r ∧ dst e' = dst e ∧
        edge_key (Graph s) e' <= edge_key (Graph s) e ∧
        (GoInt.min_int < edge_weight (edges (Graph s)) e <= GoInt.max_int →
         GoInt.min_int < edge_weight (edges (Graph s)) e' <= GoInt.max_int →
         edge_weight (edges (Graph s)) e <= edge_weight (edges (Graph s)) e').
Proof.
  intros Hrun Hthr He Hsrc Hdst.
  destruct Hrun as [Hnone|thr el kl Hthr' Hel Hsorted Hkl]; [congruence|].
  simplify_eq.
  apply Sorted_StronglySorted in Hsorted; [|apply edge_key_le_trans].
  destruct (edges_handled_loop (Graph s) el [] _ (edges_handled_nil _) Hsorted)
    as (_ & _ & Hfloor).
  simpl in Hfloor.
  assert (e ∈ el) as Hin by (rewrite Hel; by apply edges_between_elem_of).
  destruct (Hfloor e Hin) as [Hbig (e' & _ & Hst & Hd & Hkey)].
  split.
  - intros H30. unfold edge_stmt. apply GraphViz_from_edges. by apply Hbig.
  - exists e'. split; [unfold edge_stmt; by apply GraphViz_from_edges|].
    split; [done|]. split; [done|].
    intros Hr Hr'. unfold edge_key in Hkey.
    rewrite !wrap_small in Hkey
      by (unfold GoInt.in_range, GoInt.min_int, GoInt.max_int in *; lia).
    lia.
Qed.

(** *** The node loop *)

Lemma GraphViz_nodes_grow s d kl : ∀ t,
  (∀ st, st ∈ node_stmts t → st ∈ node_stmts (fst (GraphViz_nodes RemoveTypes s d kl t))) ∧
  (∀ ln, ln ∈ node_log t → ln ∈ node_log (fst (GraphViz_nodes RemoveTypes s d kl t))).
Proof.
  induction kl as [|[k n] kl IH]; intros t; simpl; [done|].
  case_decide as Hdeg.
  - destruct (IH (mkTotals (total t) (GoInt.add (missing t) (InuseBytes (cum n)))
        (node_stmts t)
        (node_log t ++ [LogNoEdges (addr n) (GoInt.div (InuseBytes (cum n)) 1024)])))
      as [Hs Hl].
    split; [done|]. intros ln Hln. apply Hl. simpl. apply elem_of_app. by left.
  - destruct (Label RemoveTypes s n) as [l|]; simpl; [|done].
    match goal with |- context [GraphViz_nodes _ _ _ _ ?t'] => destruct (IH t') as [Hs Hl] end.
    split; [|done]. intros st Hst. apply Hs. simpl. apply elem_of_app. by left.
Qed.

(** In a loop that reaches its end every node of the list is handled: logged
    as without edges, or written with its label. *)
Lemma GraphViz_nodes_each s d kl : ∀ t k n,
  snd (GraphViz_nodes RemoveTypes s d kl t) = true →
  (k, n) ∈ kl →
  (no_degree d n →
   LogNoEdges (addr n) (GoInt.div (InuseBytes (cum n)) 1024)
     ∈ node_log (fst (GraphViz_nodes RemoveTypes s d kl t))) ∧
  (¬ no_degree d n →
   ∃ l, Label RemoveTypes s n = Some l ∧
        NodeStmt (addr n) (l +:+ "\n" +:+ SizeLabel s n)
          ∈ node_stmts (fst (GraphViz_nodes RemoveTypes s d kl t))).
Proof.
  unfold no_degree.
  induction kl as [|[k0 n0] kl IH]; intros t k n Hok Hin; [by apply elem_of_nil in Hin|].
  simpl in *. apply elem_of_cons in Hin as [[= -> ->]|Hin].
  - case_decide as Hdeg.
    + split; [|done]. intros _.
      apply GraphViz_nodes_grow. simpl. apply elem_of_app. right. left.
    + split; [done|]. intros _.
      destruct (Label RemoveTypes s n0) as [l|]; [|done]. exists l. split; [done|].
      apply GraphViz_nodes_grow. simpl. apply elem_of_app. right. left.
  - case_decide as Hdeg; [by apply (IH _ k)|].
    destruct (Label RemoveTypes s n0) as [l|]; [|done]. by apply (IH _ k).
Qed.

(** The loop reaches its end exactly when every node with a degree has a
    label. *)
Lemma GraphViz_nodes_ok s d kl : ∀ t,
  snd (GraphViz_nodes RemoveTypes s d kl t) = true ↔
    ∀ k n, (k, n) ∈ kl → ¬ no_degree d n → is_Some (Label RemoveTypes s n).
Proof.
  unfold no_degree.
  induction kl as [|[k0 n0] kl IH]; intros t; simpl.
  - split; [|done]. by intros _ k n ?%elem_of_nil.
  - case_decide as Hdeg.
    + rewrite IH. split.
      * intros H k n [[= -> ->]|Hin]%elem_of_cons Hn; [done|by apply (H k)].
      * intros H k n Hin. apply (H k). by right.
    + destruct (Label RemoveTypes s n0) as [l|] eqn:Hl; simpl.
      * rewrite IH. split.
        -- intros H k n [[= -> ->]|Hin]%elem_of_cons Hn; [by rewrite Hl|by apply (H k)].
        -- intros H k n Hin. apply (H k). by right.
      * split; [done|]. intros H.
        destruct (H k0 n0 ltac:(left) Hdeg) as [? Hl']. congruence.
Qed.

(** A loop that reaches its end has added up, in [total], the exclusive
    bytes of the nodes with a degree. *)
Lemma GraphViz_nodes_total s d kl : ∀ t,
  GoInt.wrap (total t) = total t →
  snd (GraphViz_nodes RemoveTypes s d kl t) = true →
  total (fst (GraphViz_nodes RemoveTypes s d kl t)) =
    GoInt.wrap (total t + sumZ ((λ kn, InuseBytes (cur (snd kn))) <$>
      filter (λ kn, ¬ no_degree d (snd kn)) kl)).
Proof.
  unfold no_degree.
  induction kl as [|[k n] kl IH]; intros t Ht; simpl.
  - intros _. by rewrite Z.add_0_r.
  - rewrite filter_cons. simpl. case_decide as Hdeg.
    + rewrite decide_False by tauto. intros Hok. by rewrite IH.
    + rewrite decide_True by done.
      destruct (Label RemoveTypes s n) as [l|]; simpl; [|done].
      intros Hok. rewrite IH; [|apply wrap_wrap|done]. simpl.
      unfold GoInt.add. rewrite wrap_add_l. f_equal. symmetry. apply Z.add_assoc.
Qed.

(** *** A whole run *)

(** A run from a known threshold, taken apart into its two loops. *)
Lemma GraphViz_from_parts s thr el kl :
  let d := foldl (GraphViz_edge (Graph s)) (mkDegrees ∅ ∅ []) el in
  let r := GraphViz_nodes RemoveTypes s d kl (mkTotals 0 0 [] []) in
  let run := GraphViz_from RemoveTypes GOOS s thr el kl in
  finished run = snd r ∧
  (∀ a, has_edge (written run) a = false ↔
        degree (indegree d) a = 0 ∧ degree (outdegree d) a = 0) ∧
  (∀ st, st ∈ node_stmts (fst r) → st ∈ written run) ∧
  (snd r = true →
   (∀ ln, ln ∈ node_log (fst r) → ln ∈ logged run) ∧
   LogKept (GoInt.div (total (fst r)) 1024) ∈ logged run) ∧
  (Raw "}" ∈ written run ↔ snd r = true).
Proof.
  intros d r run.
  destruct (GraphViz_from_written RemoveTypes GOOS s thr el kl)
    as (Hd & Hedge & _ & Hfin & _).
  fold d in Hd, Hedge. fold r in Hfin. fold run in Hedge, Hfin.
  split; [done|]. split.
  { intros a. rewrite Hedge. by apply degrees_ok_has_edge. }
  assert (Raw "}" ∉ preamble GOOS) as Hpre.
  { unfold preamble. case_decide; simpl; intros Hin;
      repeat (apply elem_of_cons in Hin as [[=]|Hin]); by apply elem_of_nil in Hin. }
  assert (Raw "}" ∉ emitted d) as Hem.
  { destruct Hd as (Hstmts & _). by intros (? & ? & ? & [=])%Hstmts. }
  assert (Raw "}" ∉ node_stmts (fst r)) as Hno.
  { intros [[]%elem_of_nil|(n & l & [=] & _)]%GraphViz_nodes_stmts. }
  subst run. unfold GraphViz_from. fold d. fold r.
  destruct r as [t ok]. cbn [fst snd] in *.
  destruct ok; cbn [written logged].
  - split; [|split].
    + intros st Hst. rewrite !elem_of_app. eauto.
    + intros _. split.
      * intros ln Hln. rewrite !elem_of_app. eauto.
      * rewrite !elem_of_app. right. right. right. left.
    + split; [done|]. intros _. rewrite !elem_of_app. right. right. right. left.
  - split; [|split; [done|]].
    + intros st Hst. rewrite !elem_of_app. eauto.
    + split; [|done]. rewrite !elem_of_app. tauto.
Qed.

(** X16: a run that reaches its end accounts for every kept node.  A kept
    node that an edge statement reaches is written, under its address, with
    the label of [Label], the two characters backslash and n, and the size
    label; a kept node that none reaches is logged as without edges, with
    its cumulative bytes divided by 1024. *)
Theorem kept_nodes_accounted (s : state) (r : run) (threshold : Z) (k : N) (n : Node) :
  GraphViz_run RemoveTypes GOOS s r →
  finished r = true →
  nodeSizeThreshold (Graph s) (Params s) = Some threshold →
  keptNodes (Graph s) threshold !! k = Some n →
  (has_edge (written r) (addr n) = true →
   ∃ l, Label RemoveTypes s n = Some l ∧
        NodeStmt (addr n) (l +:+ "\n" +:+ SizeLabel s n) ∈ written r) ∧
  (has_edge (written r) (addr n) = false →
   LogNoEdges (addr n) (GoInt.div (InuseBytes (cum n)) 1024) ∈ logged r).
Proof.
  intros Hrun Hfin Hthr Hk.
  destruct Hrun as [Hnone|thr el kl Hthr' Hel Hsorted Hkl]; [congruence|].
  rewrite Hthr' in Hthr. injection Hthr as ->.
  destruct (GraphViz_from_parts s threshold el kl) as (Hf & Hedge & Hst & Hlog & _).
  rewrite Hf in Hfin. destruct (Hlog Hfin) as [Hln _].
  assert ((k, n) ∈ kl) as Hin by (rewrite Hkl; by apply elem_of_map_to_list).
  destruct (GraphViz_nodes_each s _ kl _ k n Hfin Hin) as [Hzero Hdeg].
  split.
  - intros Hyes. destruct Hdeg as (l & Hl & Hstmt).
    + intros Hno. apply (Hedge (addr n)) in Hno. congruence.
    + exists l. split; [done|]. by apply Hst.
  - intros Hno. apply Hln, Hzero. by apply (Hedge (addr n)).
Qed.

(** X17: a run that reaches its end logs, as the total kept, the exclusive
    bytes in use, summed and wrapped to an int and divided by 1024, of
    exactly the kept nodes that an edge statement reaches. *)
Theorem kept_total_reported (s : state) (r : run) (threshold : Z) :
  GraphViz_run RemoveTypes GOOS s r →
  finished r = true →
  nodeSizeThreshold (Graph s) (Params s) = Some threshold →
  LogKept (GoInt.div (GoInt.wrap (sumZ ((λ kn, InuseBytes (cur (snd kn))) <$>
      shown (written r) (map_to_list (keptNodes (Graph s) threshold))))) 1024)
    ∈ logged r.
Proof.
  intros Hrun Hfin Hthr.
  destruct Hrun as [Hnone|thr el kl Hthr' Hel Hsorted Hkl]; [congruence|].
  rewrite Hthr' in Hthr. injection Hthr as ->.
  destruct (GraphViz_from_parts s threshold el kl) as (Hf & Hedge & _ & Hlog & _).
  rewrite Hf in Hfin. destruct (Hlog Hfin) as [_ Hkept].
  rewrite GraphViz_nodes_total in Hkept by done. rewrite Z.add_0_l in Hkept.
  rewrite (sumZ_Permutation _ ((λ kn, InuseBytes (cur (snd kn))) <$>
      shown (written (GraphViz_from RemoveTypes GOOS s threshold el kl)) kl))
    by (unfold shown; apply fmap_Permutation, filter_Permutation; by symmetry).
  unfold shown.
  erewrite (list_filter_iff (λ kn, has_edge _ (addr (snd kn)) = true)); [exact Hkept|].
  intros [k n]. simpl. rewrite <- not_false_iff_true. by rewrite (Hedge (addr n)).
Qed.

(** X18: when a run reaches its end.  With a threshold, a run reaches its
    end exactly when [Label] gives a label for every kept node that an edge
    statement reaches; and the closing brace is written exactly by the runs
    that reach their end. *)
Theorem run_finishes (s : state) (r : run) (threshold : Z) :
  GraphViz_run RemoveTypes GOOS s r →
  nodeSizeThreshold (Graph s) (Params s) = Some threshold →
  (finished r = true ↔
     ∀ k n, keptNodes (Graph s) threshold !! k = Some n →
            has_edge (written r) (addr n) = true →
            is_Some (Label RemoveTypes s n)) ∧
  (finished r = true ↔ Raw "}" ∈ written r).
Proof.
  intros Hrun Hthr.
  destruct Hrun as [Hnone|thr el kl Hthr' Hel Hsorted Hkl]; [congruence|].
  rewrite Hthr' in Hthr. injection Hthr as ->.
  destruct (GraphViz_from_parts s threshold el kl) as (Hf & Hedge & _ & _ & Hbrace).
  rewrite Hf, Hbrace. split; [|done].
  rewrite GraphViz_nodes_ok. split.
  - intros H k n Hk Hyes. apply (H k); [rewrite Hkl; by apply elem_of_map_to_list|].
    intros Hno. apply (Hedge (addr n)) in Hno. congruence.
  - intros H k n Hin Hdeg. apply (H k); [apply elem_of_map_to_list; by rewrite <- Hkl|].
    apply not_false_iff_true. intros Hno. by apply (Hedge (addr n)) in Hno.
Qed.

(** X19: a keep count below zero.  The index into [NodeSizes] is then out of
    range whatever the graph: the run stops there, having written the
    opening lines only and logged nothing. *)
Theorem negative_keep_count (s : state) (r : run) :
  NodeKeepCount (Params s) < 0 →
  GraphViz_run RemoveTypes GOOS s r →
  r = mkRun (preamble GOOS) [] false.
Proof.
  intros Hneg Hrun.
  pose proof (nodeSizeThreshold_negative (Graph s) (Params s) Hneg) as Hnone.
  destruct Hrun as [_|thr el kl Hthr _ _ _]; [done|congruence].
Qed.

End render_more.

(** ** Label *)
Section label_more.
Context (RemoveTypes : string → string).

Lemma length_zero_empty (l : string) : String.length l = 0%nat ↔ l = EmptyString.
Proof. destruct l; simpl; split; (done || lia). Qed.

Lemma length_append (a b : string) :
  String.length (a +:+ b) = (String.length a + String.length b)%nat.
Proof. induction a as [|c a IH]; simpl; [done|]. by rewrite IH. Qed.

Lemma substring_0_length (n : nat) : ∀ l : string,
  (n ≤ String.length l)%nat → String.length (substring 0 n l) = n.
Proof.
  induction n as [|n IH]; intros l Hn; [by destruct l|].
  destruct l as [|c l]; simpl in *; [lia|]. rewrite IH; [done|lia].
Qed.

Lemma substring_0_prefix (n : nat) : ∀ l : string,
  ∃ rest, l = substring 0 n l +:+ rest.
Proof.
  induction n as [|n IH]; intros l.
  - exists l. by destruct l.
  - destruct l as [|c l]; simpl; [by exists EmptyString|].
    destruct (IH l) as [rest Hrest]. exists rest.
    change (String c l = String c (substring 0 n l +:+ rest)). by f_equal.
Qed.

Lemma Label_None (s : state) (n : Node) :
  Label RemoveTypes s n = None ↔
    name n ≠ EmptyString ∧ Demangle (demangler s) (name n) = None.
Proof.
  unfold Label. case_decide as Hlen.
  - apply length_zero_empty in Hlen.
    destruct (maps_Search _ _); split; try done; by intros [? _].
  - assert (name n ≠ EmptyString) as Hne by (by rewrite <- length_zero_empty).
    destruct (Demangle (demangler s) (name n)) as [dm|]; [|done].
    case_decide; split; try done; by intros [_ ?].
Qed.

(** X20: [Label] fails only through the demangler: it gives no label exactly
    when the node has a name and the demangler returns an error for it; a
    node without a name always gets a label, whatever the demangler does. *)
Theorem Label_fails_iff (s : state) (n : Node) :
  (Label RemoveTypes s n = None ↔
     name n ≠ EmptyString ∧ Demangle (demangler s) (name n) = None) ∧
  (name n = EmptyString → is_Some (Label RemoveTypes s n)).
Proof.
  split; [apply Label_None|].
  intros Hname. destruct (Label RemoveTypes s n) eqn:Hl; [done|].
  apply Label_None in Hl as [? _]. done.
Qed.

(** X21: the label of a named node.  When the demangler succeeds the label
    is the demangled name after [RemoveTypes] if that has at most 60
    characters; otherwise it is its first 60 characters followed by three
    dots, 63 characters in all.  So the label is never longer than 63. *)
Theorem Label_named (s : state) (n : Node) (dm : string) :
  name n ≠ EmptyString →
  Demangle (demangler s) (name n) = Some dm →
  ∃ l, Label RemoveTypes s n = Some l ∧
       (String.length l ≤ 63)%nat ∧
       ((String.length (RemoveTypes dm) ≤ 60)%nat → l = RemoveTypes dm) ∧
       ((60 < String.length (RemoveTypes dm))%nat →
        l = substring 0 60 (RemoveTypes dm) +:+ "..." ∧
        String.length l = 63%nat ∧
        ∃ rest, RemoveTypes dm = substring 0 60 (RemoveTypes dm) +:+ rest).
Proof.
  intros Hne Hdm. unfold Label.
  rewrite decide_False by (by rewrite length_zero_empty).
  rewrite Hdm. case_decide as Hlong.
  - eexists. split; [done|].
    assert (String.length (substring 0 60 (RemoveTypes dm) +:+ "...") = 63%nat) as Hlen.
    { rewrite length_append, substring_0_length by lia. done. }
    split; [lia|]. split; [lia|]. intros _. split; [done|]. split; [done|].
    apply substring_0_prefix.
  - eexists. split; [done|]. split; [lia|]. split; [done|]. lia.
Qed.

End label_more.

Lemma Label_named_witness :
  let s := mkState (mkProfile 160 (λ _, None) []) (mkDemangler (λ nm, Some (nm +:+ "()")))
                   empty_graph (mkParams 100) in
  let n := mkNode 4 "operator new" (cost 0) (cost 10) in
  let RemoveTypes := λ label : string, label in
  name n ≠ EmptyString ∧
  Demangle (demangler s) (name n) = Some "operator new()" ∧
  ∃ l, Label RemoveTypes s n = Some l ∧
       (String.length l ≤ 63)%nat ∧
       ((String.length (RemoveTypes "operator new()") ≤ 60)%nat →
        l = RemoveTypes "operator new()") ∧
       ((60 < String.length (RemoveTypes "operator new()"))%nat →
        l = substring 0 60 (RemoveTypes "operator new()") +:+ "..." ∧
        String.length l = 63%nat ∧
        ∃ rest, RemoveTypes "operator new()"
                = substring 0 60 (RemoveTypes "operator new()") +:+ rest).
Proof.
  intros s n RemoveTypes.
  split; [discriminate|]. split; [reflexivity|].
  apply (Label_named RemoveTypes s n "operator new()"); [discriminate|reflexivity].
Defined.

(** ** main: canonicalizer, builder and renderer together *)
Section main_more.
Context (RemoveTypes : string → string) (GOOS : string).
Context (profile : Profile) (syms : Symbols) (dem : Demangler).

(** A node of the graph of [main] stands at an address of a cleaned stack. *)
Lemma main_node_address x :
  is_Some (nodes (Graph (main_state profile syms dem)) !! x) →
  x ∈ all_addrs (fst (CleanupStacks (stacks profile) syms)).
Proof.
  simpl. intros (s & Hs & Hx)%nodes_Analyze. apply all_addrs_elem_of. eauto.
Qed.

Lemma main_node_name x n :
  nodes (Graph (main_state profile syms dem)) !! x = Some n →
  addr n = x ∧ name n = default EmptyString (symbol_of syms x).
Proof.
  intros Hn.
  assert (is_Some (nodes (Graph (main_state profile syms dem)) !! x)) as Hx by (by eexists).
  apply main_node_address in Hx.
  simpl in Hn. destruct (node_fields_Analyze _ _ x n Hn) as [Haddr Hname].
  split; [done|]. rewrite Hname. unfold name_of.
  destruct (CleanupStacks_spec syms (stacks profile)) as [Hout Hnames].
  rewrite Hnames. unfold name_entry. rewrite Hout in Hx.
  destruct (symbol_of syms x) as [nm|] eqn:Hs; [|done].
  destruct (cleaned_first_seen syms _ x nm Hx Hs) as [Hf _].
  by rewrite decide_True.
Qed.

(** X22: the nodes of the graph [main] builds.  A node stands at an address
    of the profile's stacks and carries the name of the symbol its address
    resolves to, the empty name when it resolves to none; and no two nodes
    stand at addresses of the same symbol. *)
Theorem main_graph_nodes (x : N) (n : Node) :
  nodes (Graph (main_state profile syms dem)) !! x = Some n →
  x ∈ all_addrs (stacks profile) ∧
  addr n = x ∧
  name n = default EmptyString (symbol_of syms x) ∧
  ∀ y, is_Some (nodes (Graph (main_state profile syms dem)) !! y) →
       is_Some (symbol_of syms x) → symbol_of syms y = symbol_of syms x → y = x.
Proof.
  intros Hn.
  assert (is_Some (nodes (Graph (main_state profile syms dem)) !! x)) as Hx by (by eexists).
  apply main_node_address in Hx.
  destruct (main_node_name x n Hn) as [Haddr Hname].
  destruct (CleanupStacks_spec syms (stacks profile)) as [Hout _].
  split; [|split; [done|split; [done|]]].
  - rewrite Hout in Hx. apply cleaned_elem_of in Hx as (a & Ha & ->).
    destruct (symbol_of syms a) as [nm|] eqn:Hs.
    + by destruct (first_seen_Some syms nm _ _ (canonical_first_seen syms _ a nm Hs Ha)).
    + by rewrite canonical_unresolved.
  - intros y Hy%main_node_address [nm Hnm] Hsame. rewrite Hnm in Hsame.
    rewrite Hout in Hx, Hy.
    destruct (cleaned_first_seen syms _ x nm Hx Hnm) as [Hfx _].
    destruct (cleaned_first_seen syms _ y nm Hy Hsame) as [Hfy _].
    congruence.
Qed.

(** X23: the run of [main].  With its keep count of 100 the threshold is
    always found, and it is 0 when at most 100 nodes have a positive size;
    and when the demangler succeeds on every name the resolver gives, the
    run reaches its end and writes the closing brace. *)
Theorem main_run_finishes :
  let s := main_state profile syms dem in
  (∃ threshold, nodeSizeThreshold (Graph s) (Params s) = Some threshold ∧
                ((length (NodeSizes (Graph s)) ≤ 100)%nat → threshold = 0)) ∧
  ((∀ a nm, symbol_of syms a = Some nm → is_Some (Demangle dem nm)) →
   finished (main_output RemoveTypes GOOS profile syms dem) = true ∧
   Raw "}" ∈ written (main_output RemoveTypes GOOS profile syms dem)).
Proof.
  intros s.
  assert (∃ threshold, nodeSizeThreshold (Graph s) (Params s) = Some threshold ∧
            ((length (NodeSizes (Graph s)) ≤ 100)%nat → threshold = 0)) as Hthr.
  { destruct (NodeSizes (Graph s) !! 100%nat) as [thr|] eqn:Hthr.
    - exists thr. split; [by apply nodeSizeThreshold_index|].
      apply lookup_lt_Some in Hthr. lia.
    - exists 0. split; [|done]. apply nodeSizeThreshold_short; [|done].
      by apply lookup_ge_None. }
  split; [done|]. intros Hdem.
  destruct Hthr as (thr & Hthr & _).
  unfold main_output, GraphViz. fold s. rewrite Hthr.
  destruct (GraphViz_from_parts RemoveTypes GOOS s thr
              (Sort (edges_between (Graph s) (keptNodes (Graph s) thr)) (edge_key (Graph s)))
              (map_to_list (keptNodes (Graph s) thr))) as (Hf & _ & _ & _ & Hbrace).
  rewrite Hf, Hbrace.
  assert (snd (GraphViz_nodes RemoveTypes s
     (foldl (GraphViz_edge (Graph s)) (mkDegrees ∅ ∅ [])
        (Sort (edges_between (Graph s) (keptNodes (Graph s) thr)) (edge_key (Graph s))))
     (map_to_list (keptNodes (Graph s) thr)) (mkTotals 0 0 [] [])) = true) as Hok; [|done].
  apply GraphViz_nodes_ok. intros k n Hkn%elem_of_map_to_list _.
  apply keptNodes_lookup in Hkn as [Hn _].
  destruct (main_node_name k n Hn) as [_ Hname].
  destruct (Label RemoveTypes s n) eqn:Hl; [done|].
  apply Label_None in Hl as [Hne Hnone]. simpl in Hnone.
  destruct (symbol_of syms k) as [nm|] eqn:Hs; simpl in Hname; [|done].
  destruct (Hdem k nm Hs) as [? Hsome]. congruence.
Qed.

End main_more.

(** ** The further properties at work *)

Lemma cleaned_addresses_witness :
  let stacks := [mkStack [5; 0; 7; 5]%N (cost 10); mkStack [7; 7; 9]%N (cost 3)] in
  let out := fst (CleanupStacks stacks syms_zero) in
  5%N ∈ all_addrs out ∧
  5%N ∈ all_addrs stacks ∧
  ∀ y, y ∈ all_addrs out → is_Some (symbol_of syms_zero 5) →
       symbol_of syms_zero y = symbol_of syms_zero 5 → y = 5%N.
Proof.
  intros stacks out.
  assert (5%N ∈ all_addrs out) as Hin by (vm_compute; left).
  split; [exact Hin|]. exact (cleaned_addresses syms_zero stacks 5 Hin).
Defined.

Lemma CleanupStacks_unresolved_witness :
  let syms := mkSymbols (λ _, None) in
  let stacks := [mkStack [0; 3; 3; 4]%N (cost 10); mkStack [4; 0; 0]%N (cost 3)] in
  (∀ a, a ∈ all_addrs stacks → Lookup syms a = None) ∧
  let r := CleanupStacks stacks syms in
  snd r = ∅ ∧
  fst r = (λ s, mkStack (collapse 0 (Stack_Stack s)) (Stack_Stats s)) <$> stacks.
Proof.
  intros syms stacks.
  assert (∀ a, a ∈ all_addrs stacks → Lookup syms a = None) as Hnone by reflexivity.
  split; [exact Hnone|]. exact (CleanupStacks_unresolved syms stacks Hnone).
Defined.

Lemma written_edges_are_kept_witness :
  let s := scenario_state in
  let r := GraphViz (λ label, label) "linux" s in
  GraphViz_run (λ label, label) "linux" s r ∧
  nodeSizeThreshold (Graph s) (Params s) = Some 0 ∧
  EdgeStmt 2 1 0 ∈ written r ∧
  is_Some (edges (Graph s) !! (2%N, 1%N)) ∧
  is_Some (keptNodes (Graph s) 0 !! 2%N) ∧
  is_Some (keptNodes (Graph s) 0 !! 1%N) ∧
  0 = GoInt.div (edge_weight (edges (Graph s)) (2%N, 1%N)) 1024.
Proof.
  intros s r.
  assert (GraphViz_run (λ label, label) "linux" s r) as Hrun by apply GraphViz_is_run.
  assert (nodeSizeThreshold (Graph s) (Params s) = Some 0) as Hthr by reflexivity.
  assert (EdgeStmt 2 1 0 ∈ written r) as Hst by (vm_compute; do 5 right; left).
  split; [exact Hrun|]. split; [exact Hthr|]. split; [exact Hst|].
  exact (written_edges_are_kept (λ label, label) "linux" s r 0 2 1 0 Hrun Hthr Hst).
Defined.

Lemma edge_floors_witness :
  let s := scenario_state in
  let r := GraphViz (λ label, label) "linux" s in
  let e : edge := (3%N, 1%N) in
  GraphViz_run (λ label, label) "linux" s r ∧
  nodeSizeThreshold (Graph s) (Params s) = Some 0 ∧
  is_Some (edges (Graph s) !! e) ∧
  is_Some (keptNodes (Graph s) 0 !! src e) ∧
  is_Some (keptNodes (Graph s) 0 !! dst e) ∧
  (30 <= GoInt.div (edge_weight (edges (Graph s)) e) 1024 →
   edge_stmt (Graph s) e ∈ written r) ∧
  ∃ e', edge_stmt (Graph s) e' ∈ written r ∧ dst e' = dst e ∧
        edge_key (Graph s) e' <= edge_key (Graph s) e ∧
        (GoInt.min_int < edge_weight (edges (Graph s)) e <= GoInt.max_int →
         GoInt.min_int < edge_weight (edges (Graph s)) e' <= GoInt.max_int →
         edge_weight (edges (Graph s)) e <= edge_weight (edges (Graph s)) e').
Proof.
  intros s r e.
  assert (GraphViz_run (λ label, label) "linux" s r) as Hrun by apply GraphViz_is_run.
  assert (nodeSizeThreshold (Graph s) (Params s) = Some 0) as Hthr by reflexivity.
  assert (is_Some (edges (Graph s) !! e)) as He by (by eexists).
  assert (is_Some (keptNodes (Graph s) 0 !! src e)) as Hsrc by (by eexists).
  assert (is_Some (keptNodes (Graph s) 0 !! dst e)) as Hdst by (by eexists).
  split; [exact Hrun|]. split; [exact Hthr|]. split; [exact He|].
  split; [exact Hsrc|]. split; [exact Hdst|].
  exact (edge_floors (λ label, label) "linux" s r 0 e Hrun Hthr He Hsrc Hdst).
Defined.

Lemma kept_nodes_accounted_witness :
  let s := scenario_state in
  let r := GraphViz (λ label, label) "linux" s in
  let n := mkNode 3 EmptyString (cost 0) (cost 10) in
  GraphViz_run (λ label, label) "linux" s r ∧
  finished r = true ∧
  nodeSizeThreshold (Graph s) (Params s) = Some 0 ∧
  keptNodes (Graph s) 0 !! 3%N = Some n ∧
  (has_edge (written r) (addr n) = true →
   ∃ l, Label (λ label, label) s n = Some l ∧
        NodeStmt (addr n) (l +:+ "\n" +:+ SizeLabel s n) ∈ written r) ∧
  (has_edge (written r) (addr n) = false →
   LogNoEdges (addr n) (GoInt.div (InuseBytes (cum n)) 1024) ∈ logged r).
Proof.
  intros s r n.
  assert (GraphViz_run (λ label, label) "linux" s r) as Hrun by apply GraphViz_is_run.
  assert (finished r = true) as Hfin by reflexivity.
  assert (nodeSizeThreshold (Graph s) (Params s) = Some 0) as Hthr by reflexivity.
  assert (keptNodes (Graph s) 0 !! 3%N = Some n) as Hk by reflexivity.
  split; [exact Hrun|]. split; [exact Hfin|]. split; [exact Hthr|]. split; [exact Hk|].
  exact (kept_nodes_accounted (λ label, label) "linux" s r 0 3 n Hrun Hfin Hthr Hk).
Defined.

Lemma kept_total_reported_witness :
  let s := scenario_state in
  let r := GraphViz (λ label, label) "linux" s in
  GraphViz_run (λ label, label) "linux" s r ∧
  finished r = true ∧
  nodeSizeThreshold (Graph s) (Params s) = Some 0 ∧
  LogKept (GoInt.div (GoInt.wrap (sumZ ((λ kn, InuseBytes (cur (snd kn))) <$>
      shown (written r) (map_to_list (keptNodes (Graph s) 0))))) 1024)
    ∈ logged r.
Proof.
  intros s r.
  assert (GraphViz_run (λ label, label) "linux" s r) as Hrun by apply GraphViz_is_run.
  assert (finished r = true) as Hfin by reflexivity.
  assert (nodeSizeThreshold (Graph s) (Params s) = Some 0) as Hthr by reflexivity.
  split; [exact Hrun|]. split; [exact Hfin|]. split; [exact Hthr|].
  exact (kept_total_reported (λ label, label) "linux" s r 0 Hrun Hfin Hthr).
Defined.

Lemma run_finishes_witness :
  let s := scenario_state in
  let r := GraphViz (λ label, label) "linux" s in
  GraphViz_run (λ label, label) "linux" s r ∧
  nodeSizeThreshold (Graph s) (Params s) = Some 0 ∧
  (finished r = true ↔
     ∀ k n, keptNodes (Graph s) 0 !! k = Some n →
            has_edge (written r) (addr n) = true →
            is_Some (Label (λ label, label) s n)) ∧
  (finished r = true ↔ Raw "}" ∈ written r).
Proof.
  intros s r.
  assert (GraphViz_run (λ label, label) "linux" s r) as Hrun by apply GraphViz_is_run.
  assert (nodeSizeThreshold (Graph s) (Params s) = Some 0) as Hthr by reflexivity.
  split; [exact Hrun|]. split; [exact Hthr|].
  exact (run_finishes (λ label, label) "linux" s r 0 Hrun Hthr).
Defined.

Lemma negative_keep_count_witness :
  let s := mkState (mkProfile 160 (λ _, None) (scenario 1 2 3)) (mkDemangler Some)
                   (Analyze empty_graph (scenario 1 2 3) ∅) (mkParams (-1)) in
  let r := GraphViz (λ label, label) "linux" s in
  NodeKeepCount (Params s) < 0 ∧
  GraphViz_run (λ label, label) "linux" s r ∧
  r = mkRun (preamble "linux") [] false.
Proof.
  intros s r.
  assert (NodeKeepCount (Params s) < 0) as Hneg by (simpl; lia).
  assert (GraphViz_run (λ label, label) "linux" s r) as Hrun by apply GraphViz_is_run.
  split; [exact Hneg|]. split; [exact Hrun|].
  exact (negative_keep_count (λ label, label) "linux" s r Hneg Hrun).
Defined.

Lemma main_graph_nodes_witness :
  let profile := mkProfile 13 (λ _, None)
                   [mkStack [5; 0; 7; 5]%N (cost 10); mkStack [7; 7; 9]%N (cost 3)] in
  let dem := mkDemangler Some in
  let n := mkNode 5 "f" (cost 10) (cost 20) in
  nodes (Graph (main_state profile syms_zero dem)) !! 5%N = Some n ∧
  5%N ∈ all_addrs (stacks profile) ∧
  addr n = 5%N ∧
  name n = default EmptyString (symbol_of syms_zero 5) ∧
  ∀ y, is_Some (nodes (Graph (main_state profile syms_zero dem)) !! y) →
       is_Some (symbol_of syms_zero 5) →
       symbol_of syms_zero y = symbol_of syms_zero 5 → y = 5%N.
Proof.
  intros profile dem n.
  assert (nodes (Graph (main_state profile syms_zero dem)) !! 5%N = Some n) as Hn
    by reflexivity.
  split; [exact Hn|]. exact (main_graph_nodes profile syms_zero dem 5 n Hn).
Defined.

(** ** main on a profile without frames *)
Section main_empty.
Context (RemoveTypes : string → string) (GOOS : string).

Lemma Analyze_stacks_no_frames names stacks : ∀ g,
  (∀ s, s ∈ stacks → Stack_Stack s = []) → Analyze_stacks names g stacks = g.
Proof.
  induction stacks as [|s stacks IH]; intros g Hall; [done|].
  rewrite Analyze_stacks_cons. unfold Analyze_stack.
  rewrite (Hall s) by left. simpl. apply IH. intros s' Hs'. apply Hall. by right.
Qed.

(** X24: a profile without frames.  When the profile has no stack, or only
    stacks without frames, [main] writes the opening lines and the closing
    brace and nothing between them, and logs a threshold of 0k, 0k not
    shown and 0k kept; it does so whatever the symbols and the demangler. *)
Theorem main_no_frames (profile : Profile) (syms : Symbols) (dem : Demangler) :
  (∀ s, s ∈ stacks profile → Stack_Stack s = []) →
  main_output RemoveTypes GOOS profile syms dem =
    mkRun (preamble GOOS ++ [Raw "}"])
          [LogKeeping 100 0; LogNotShown 0; LogKept 0] true.
Proof.
  intros Hall.
  assert (Graph (main_state profile syms dem) = empty_graph) as Hg.
  { unfold main_state. cbn [Graph]. unfold Analyze.
    rewrite Analyze_stacks_no_frames; [done|].
    intros s'. destruct (CleanupStacks_spec syms (stacks profile)) as [-> _].
    intros (s & -> & Hs)%list_elem_of_fmap. simpl. by rewrite (Hall s Hs). }
  unfold main_output, GraphViz. rewrite Hg.
  change (nodeSizeThreshold empty_graph (Params (main_state profile syms dem)))
    with (Some 0).
  unfold GraphViz_from. rewrite Hg.
  assert (keptNodes empty_graph 0 = ∅) as -> by apply map_filter_empty.
  assert (edges_between empty_graph ∅ = []) as -> by done.
  rewrite map_to_list_empty. done.
Qed.

End main_empty.

Lemma main_no_frames_witness :
  let profile := mkProfile 0 (λ _, None) [mkStack [] (cost 5)] in
  (∀ s, s ∈ stacks profile → Stack_Stack s = []) ∧
  main_output (λ label, label) "linux" profile syms_zero (mkDemangler (λ _, None)) =
    mkRun (preamble "linux" ++ [Raw "}"])
          [LogKeeping 100 0; LogNotShown 0; LogKept 0] true.
Proof.
  intros profile.
  assert (∀ s, s ∈ stacks profile → Stack_Stack s = []) as Hall.
  { intros s Hs. apply list_elem_of_singleton in Hs. by subst s. }
  split; [exact Hall|].
  exact (main_no_frames (λ label, label) "linux" profile syms_zero
           (mkDemangler (λ _, None)) Hall).
Defined.

(** ** Analyze: what flows through a node *)
Section flow.
Context (names : gmap N string) (stacks : list Stack).

Lemma wrap_sumZ {A} (f : A → Z) (l : list A) :
  GoInt.wrap (sumZ ((λ a, GoInt.wrap (f a)) <$> l)) = GoInt.wrap (sumZ (f <$> l)).
Proof.
  induction l as [|a l IH]; [done|].
  rewrite !fmap_cons, !sumZ_cons, wrap_add_l, <- wrap_add_r, IH, wrap_add_r. done.
Qed.

Lemma sumZ_exchange {A B} (f : A → B → Z) (la : list A) (lb : list B) :
  sumZ ((λ a, sumZ (f a <$> lb)) <$> la) = sumZ ((λ b, sumZ ((λ a, f a b) <$> la)) <$> lb).
Proof.
  induction la as [|a la IH].
  - simpl. by rewrite sumZ_zero.
  - rewrite fmap_cons, sumZ_cons, IH, <- sumZ_add.
    apply sumZ_ext. intros b _. by rewrite fmap_cons, sumZ_cons.
Qed.

Lemma sumZ_scale {A} (c : Z) (f : A → Z) (l : list A) :
  sumZ ((λ a, c * f a) <$> l) = c * sumZ (f <$> l).
Proof.
  induction l as [|a l IH]; [simpl; lia|].
  rewrite !fmap_cons, !sumZ_cons, IH. lia.
Qed.

(** Over distinct edges, an edge is met at most once. *)
Lemma sumZ_one_edge (e' : edge) (K : list edge) :
  NoDup K →
  sumZ ((λ e, if decide (e' = e) then 1 else 0) <$> K) = if decide (e' ∈ K) then 1 else 0.
Proof.
  induction 1 as [|e K He Hnd IH]; [done|].
  rewrite fmap_cons, sumZ_cons, IH.
  repeat case_decide; simplify_eq; try lia; exfalso; set_solver.
Qed.

(** Counting, edge by edge over the distinct edges [K] that satisfy [P], the
    occurrences in [L] counts the members of [L] that satisfy [P]. *)
Lemma sumZ_counts (P : edge → Prop) `{∀ e, Decision (P e)} (K L : list edge) :
  NoDup K → (∀ e, e ∈ K → P e) → (∀ e, e ∈ L → P e → e ∈ K) →
  sumZ ((λ e, Z.of_nat (length (filter (λ e', e' = e) L))) <$> K) =
    Z.of_nat (length (filter P L)).
Proof.
  intros Hnd HK. induction L as [|e' L IH]; intros HL.
  - simpl. by rewrite sumZ_zero.
  - rewrite filter_cons.
    rewrite (sumZ_ext _ (λ e, (if decide (e' = e) then 1 else 0)
                              + Z.of_nat (length (filter (λ x, x = e) L)))).
    2:{ intros e _. rewrite count_cons. case_decide; lia. }
    rewrite sumZ_add, sumZ_one_edge by done.
    rewrite IH by (intros e He; apply HL; by right).
    destruct (decide (P e')) as [HP|HP].
    + rewrite decide_True by (apply HL; [left|done]). simpl. lia.
    + rewrite decide_False; [lia|]. intros Hin. by apply HP, HK.
Qed.

(** The steps that start at [x] are the frames [x] after the first one. *)
Lemma steps_from x (fr : list N) :
  length (filter (λ e, src e = x) (steps fr)) = occurrences x (tail fr).
Proof.
  destruct fr as [|p fr]; [done|]. simpl. revert p.
  induction fr as [|a fr IH]; intros p; [done|].
  rewrite steps_cons, filter_cons, occurrences_cons. simpl.
  case_decide; simpl; by rewrite IH.
Qed.

Lemma frames_None_head l : head (frames None l) = head l.
Proof. by destruct l. Qed.

Lemma visits_split x s :
  Z.of_nat (visits x s) =
    (if leaf_of x s then 1 else 0)
    + Z.of_nat (length (filter (λ e, src e = x) (steps (frames None (Stack_Stack s))))).
Proof.
  unfold visits, leaf_of. rewrite steps_from, <- frames_None_head.
  destruct (frames None (Stack_Stack s)) as [|a fr]; simpl; [done|].
  rewrite occurrences_cons.
  case_bool_decide as Ha; simplify_eq.
  - rewrite decide_True by done. lia.
  - rewrite decide_False by congruence. lia.
Qed.

Lemma Analyze_stacks_weight (e : edge) :
  let g := Analyze empty_graph stacks names in
  edge_weight (edges g) e = GoInt.wrap (weight_of_walks e stacks) ∧
  (is_Some (edges g !! e) ↔
   ∃ s, s ∈ stacks ∧ e ∈ steps (frames None (Stack_Stack s))).
Proof.
  intros g. subst g.
  change (edges (Analyze empty_graph stacks names))
    with (edges (Analyze_stacks names empty_graph stacks)).
  split; [by rewrite edge_weight_stacks|].
  rewrite edges_stacks. simpl. rewrite lookup_empty. split; [|by right].
  by intros [[? [=]]|?].
Qed.

Lemma NoDup_fst_filter {A} (P : edge * A → Prop) `{∀ x, Decision (P x)} (l : list (edge * A)) :
  NoDup (fst <$> l) → NoDup (fst <$> filter P l).
Proof.
  induction l as [|a l IH]; [done|].
  rewrite fmap_cons, NoDup_cons. intros [Ha Hl]. rewrite filter_cons.
  case_decide; [|by apply IH]. rewrite fmap_cons, NoDup_cons. split; [|by apply IH].
  intros (b & Hb & Hin%list_elem_of_filter)%list_elem_of_fmap. apply Ha.
  apply list_elem_of_fmap. exists b. split; [done|]. by destruct Hin.
Qed.

(** X25: what flows through a node.  In the graph [Analyze] builds, the
    cumulative bytes in use of a node are its exclusive bytes in use plus the
    weights of the edges that start at it, in wrapping int arithmetic: a
    visit of the node is charged either to [cur], as a first frame, or to
    the edge toward the frame visited before it. *)
Theorem flow_through_node (x : N) (n : Node) :
  let g := Analyze empty_graph stacks names in
  nodes g !! x = Some n →
  InuseBytes (cum n) = GoInt.wrap (InuseBytes (cur n) + out_weight g x).
Proof.
  intros g Hn.
  pose proof (cum_Analyze FInuseBytes x stacks names) as Hcum.
  pose proof (cur_Analyze FInuseBytes x stacks names) as Hcur.
  fold g in Hcum, Hcur.
  rewrite (cum_at_node _ _ _ Hn) in Hcum. rewrite (cur_at_node _ _ _ Hn) in Hcur.
  simpl in Hcum, Hcur. rewrite Hcum, Hcur. clear Hcum Hcur.
  unfold out_weight.
  set (F := filter (λ ew : edge * Z, src (fst ew) = x) (map_to_list (edges g))).
  assert (snd <$> F = (λ ew, GoInt.wrap (weight_of_walks (fst ew) stacks)) <$> F) as ->.
  { apply list_fmap_ext. intros i [e w] Hi. simpl.
    apply list_elem_of_lookup_2, list_elem_of_filter in Hi as [_ Hew%elem_of_map_to_list].
    destruct (Analyze_stacks_weight e) as [Hw _]. fold g in Hw.
    unfold edge_weight in Hw. rewrite Hew in Hw. done. }
  change ((λ ew : edge * Z, GoInt.wrap (weight_of_walks (fst ew) stacks)) <$> F)
    with (((λ e, GoInt.wrap (weight_of_walks e stacks)) ∘ fst) <$> F).
  rewrite (list_fmap_compose fst (λ e, GoInt.wrap (weight_of_walks e stacks)) F).
  rewrite wrap_add_l, <- wrap_add_r, wrap_sumZ, wrap_add_r. f_equal.
  unfold weight_of_walks, cost_of_visits, cost_of_leaves.
  rewrite sumZ_exchange, <- sumZ_add. apply sumZ_ext. intros s Hs. simpl.
  rewrite sumZ_scale, visits_split. unfold walks.
  rewrite (sumZ_counts (λ e, src e = x) (fst <$> F) (steps (frames None (Stack_Stack s)))).
  - destruct (leaf_of x s); lia.
  - apply NoDup_fst_filter, NoDup_fst_map_to_list.
  - intros e ([e' w] & -> & [Hsrc _]%list_elem_of_filter)%list_elem_of_fmap. done.
  - intros e He Hsrc.
    destruct (Analyze_stacks_weight e) as [_ Hsome]. fold g in Hsome.
    destruct (proj2 Hsome) as [w Hw]; [eauto|].
    apply list_elem_of_fmap. exists (e, w). split; [done|].
    apply list_elem_of_filter. split; [done|]. by apply elem_of_map_to_list.
Qed.

End flow.

Lemma flow_through_node_witness :
  let stacks := [mkStack [1; 2; 1; 3]%N (cost 10); mkStack [2; 1]%N (cost 7)] in
  let g := Analyze empty_graph stacks ∅ in
  let n := mkNode 1 EmptyString (cost 10) (cost 27) in
  nodes g !! 1%N = Some n ∧
  InuseBytes (cum n) = GoInt.wrap (InuseBytes (cur n) + out_weight g 1).
Proof.
  intros stacks g n.
  assert (nodes g !! 1%N = Some n) as Hn by reflexivity.
  split; [exact Hn|]. exact (flow_through_node ∅ stacks 1 n Hn).
Defined.
